(** * SQLMatches: the community directory and the version endpoint

    A shallow embedding of [SQLMatches/community/__init__.py] and of
    [SQLMatches/routes/api/misc.py].  Tables are lists of rows in storage
    order, a query is a function of the database, and the coroutines of the
    source are computations in a state-and-exception monad over a
    [Session]: the database together with what the outside world will
    answer (persistence failures, random tokens, clock readings). *)

From Stdlib Require Import List String Ascii ZArith Bool Lia Permutation Sorted.
Import ListNotations.

Local Open Scope string_scope.
Local Open Scope Z_scope.

(** ** Exceptions *)

(** The exceptions of [community/exceptions.py], the [AttributeError] of the
    interpreter, three failures of the persistence layer and one exception
    that derives from [BaseException] only. *)
Inductive PyExn : Type :=
| CommunityTaken
| AlreadyCommunity
| InvalidCommunity
| NoOwnership
| InvalidAPIKey
| AttributeError
| IntegrityError
| OperationalError
| InterfaceError
| CancelledError.

(** [isinstance(e, Exception)]: what an [except Exception] clause catches. *)
Definition isinstance_Exception (e : PyExn) : bool :=
  match e with
  | CancelledError => false
  | _ => true
  end.

(** ** Tables

    [tables.py] is not part of the sources at hand: each row type lists the
    columns that the statements of the source read or write. *)

Record community_row : Type := mk_community {
  c_community_name : string;
  c_owner_id : string;
  c_disabled : bool;
  c_demos : bool;
  c_timestamp : Z }.

Record api_key_row : Type := mk_api_key {
  k_api_key : string;
  k_owner_id : string;
  k_timestamp : Z;
  k_community_name : string;
  k_master : bool }.

(** Modelled from the spec: the column [name] of the totals table, which
    only the search branch of [Community.matches] reads.  The spec calls it
    a denormalized name column next to [community_name]; [create_match]
    does not write it, hence the option. *)
Record scoreboard_total_row : Type := mk_total {
  t_match_id : string;
  t_team_1_name : string;
  t_team_2_name : string;
  t_team_1_side : Z;
  t_team_2_side : Z;
  t_map : string;
  t_community_name : string;
  t_team_1_score : Z;
  t_team_2_score : Z;
  t_status : Z;
  t_demo_status : Z;
  t_timestamp : Z;
  t_name : option string }.

Record scoreboard_row : Type := mk_scoreboard {
  p_match_id : string;
  p_steam_id : string }.

Record user_row : Type := mk_user {
  u_steam_id : string;
  u_name : string }.

Record update_row : Type := mk_update {
  v_version : string;
  v_message : string }.

Record Database : Type := mk_db {
  community_table : list community_row;
  api_key_table : list api_key_row;
  scoreboard_total_table : list scoreboard_total_row;
  scoreboard_table : list scoreboard_row;
  user_table : list user_row;
  update_table : list update_row }.

(** ** Objects of the source *)

(** [Community(community_name)]. *)
Record Community : Type := Community_init { community_name : string }.

(** [Match(match_id, community_name)]. *)
Record Match : Type := Match_init {
  match_id : string;
  match_community_name : string }.

(** [CommunityModel]: the four keys of the mapping it is built from. *)
Record CommunityModel : Type := mk_CommunityModel {
  cm_api_key : string;
  cm_owner_id : string;
  cm_disabled : bool;
  cm_community_name : string }.

(** [MatchModel]: the eleven columns selected by [Community.matches]. *)
Record MatchModel : Type := mk_MatchModel {
  mm_match_id : string;
  mm_timestamp : Z;
  mm_status : Z;
  mm_demo_status : Z;
  mm_map : string;
  mm_team_1_name : string;
  mm_team_2_name : string;
  mm_team_1_score : Z;
  mm_team_2_score : Z;
  mm_team_1_side : Z;
  mm_team_2_side : Z }.

Definition MatchModel_eq_dec (a b : MatchModel) : {a = b} + {a <> b}.
Proof.
  decide equality; solve [apply Z.eq_dec | apply string_dec].
Defined.

(** Values that travel through the cache and the response bodies. *)
#[warnings="-register-all"]
Inductive PyValue : Type :=
| PyNone
| PyStr (s : string)
| PyDict (items : list (string * PyValue)).

(** Truth value of such a value: [None], the empty string and the empty
    mapping are false. *)
Definition py_truthy (v : PyValue) : bool :=
  match v with
  | PyNone => false
  | PyStr EmptyString => false
  | PyStr (String _ _) => true
  | PyDict [] => false
  | PyDict (_ :: _) => true
  end.

(** [response(data)] and [error_response(kind)]. *)
Inductive HTTPResponse : Type :=
| response (data : PyValue)
| error_response (kind : string).

(** ** Sessions and the monad of coroutines *)

(** What [Sessions.database] holds and what the world will answer: the
    [n]-th statement sent to the persistence layer fails with [faults n]
    when that is an exception (a lost connection, a constraint that the
    model does not spell out), the [n]-th random token is [entropy n], the
    [n]-th reading of the clock is [clock n].  [cache] is the store behind
    [VersionCache], the latest entry first. *)
Record Session : Type := mk_session {
  db : Database;
  cache : list (string * PyValue);
  faults : nat -> option PyExn;
  statements : nat;
  entropy : nat -> string;
  draws : nat;
  clock : nat -> Z;
  ticks : nat }.

Inductive Outcome (A : Type) : Type :=
| Returned (a : A)
| Raised (e : PyExn).
Arguments Returned {A} a.
Arguments Raised {A} e.

Definition M (A : Type) : Type := Session -> Outcome A * Session.

Definition ret {A} (a : A) : M A := fun s => (Returned a, s).

Definition raise {A} (e : PyExn) : M A := fun s => (Raised e, s).

Definition bind {A B} (m : M A) (k : A -> M B) : M B :=
  fun s =>
    match m s with
    | (Returned a, s') => k a s'
    | (Raised e, s') => (Raised e, s')
    end.

Declare Scope coroutine_scope.
Delimit Scope coroutine_scope with coroutine.
Notation "x <- m ;; k" := (bind m (fun x => k))
  (at level 100, m at next level, right associativity) : coroutine_scope.
Notation "m ;;; k" := (bind m (fun _ => k))
  (at level 100, right associativity) : coroutine_scope.
Local Open Scope coroutine_scope.

(** [try: m / except Exception: raise e' / else: k]. *)
Definition try_except_Exception {A B} (m : M A) (e' : PyExn) (k : A -> M B)
  : M B :=
  fun s =>
    match m s with
    | (Returned a, s') => k a s'
    | (Raised e, s') =>
        if isinstance_Exception e then (Raised e', s') else (Raised e, s')
    end.

Definition with_db (s : Session) (d : Database) : Session :=
  mk_session d (cache s) (faults s) (statements s) (entropy s) (draws s)
    (clock s) (ticks s).

Definition next_statement (s : Session) : Session :=
  mk_session (db s) (cache s) (faults s) (S (statements s)) (entropy s)
    (draws s) (clock s) (ticks s).

(** One statement handed to [Sessions.database]: it fails as the world
    says, or it runs against the database. *)
Definition statement {A} (sem : Database -> Outcome A * Database) : M A :=
  fun s =>
    match faults s (statements s) with
    | Some e => (Raised e, next_statement s)
    | None =>
        let (r, d) := sem (db s) in (r, next_statement (with_db s d))
    end.

(** A statement that only reads. *)
Definition fetch {A} (q : Database -> A) : M A :=
  statement (fun d => (Returned (q d), d)).

(** [secrets.token_urlsafe(nbytes)]. *)
Definition token_urlsafe (nbytes : nat) : M string :=
  fun s =>
    (Returned (entropy s (draws s)),
     mk_session (db s) (cache s) (faults s) (statements s) (entropy s)
       (S (draws s)) (clock s) (ticks s)).

(** [str(uuid4())]. *)
Definition uuid4 : M string := token_urlsafe 16.

(** [datetime.now()]. *)
Definition datetime_now : M Z :=
  fun s =>
    (Returned (clock s (ticks s)),
     mk_session (db s) (cache s) (faults s) (statements s) (entropy s)
       (draws s) (clock s) (S (ticks s))).

(** The persistence layer answers every statement to come. *)
Definition quiet (s : Session) : Prop := forall n, faults s n = None.

(** ** Relational operators *)

(** [l.join(r, on)]: an inner join, row pairs in nested-loop order. *)
Definition join {A B} (on : A -> B -> bool) (l : list A) (r : list B)
  : list (A * B) :=
  flat_map (fun a => map (pair a) (filter (on a) r)) l.

(** [fetch_one]: the first row of the result, if any. *)
Definition fetch_one {A} (rows : list A) : option A := hd_error rows.

(** Truth value of a string. *)
Definition truthy (s : string) : bool :=
  match s with
  | EmptyString => false
  | String _ _ => true
  end.

(** ** Statements of the source, as functions of the database *)

Definition same_community (c : community_row) (k : api_key_row) : bool :=
  (c_community_name c =? k_community_name k)%string.

(** The [SELECT] of [Community.exists]: a count. *)
Definition count_community (name : string) (d : Database) : nat :=
  List.length
    (filter (fun c => (c_community_name c =? name)%string)
       (community_table d)).

(** The [SELECT] of [Community.get]. *)
Definition select_community (name : string) (d : Database)
  : list (community_row * api_key_row) :=
  filter (fun ck => (c_community_name (fst ck) =? name)%string
                    && k_master (snd ck))
    (join same_community (community_table d) (api_key_table d)).

(** [CommunityModel(row)] for a row of that result. *)
Definition CommunityModel_of_row (ck : community_row * api_key_row)
  : CommunityModel :=
  mk_CommunityModel (k_api_key (snd ck)) (k_owner_id (snd ck))
    (c_disabled (fst ck)) (c_community_name (fst ck)).

(** The [SELECT] of [api_key_to_community]. *)
Definition select_api_key (api_key : string) (d : Database)
  : list (community_row * api_key_row) :=
  filter (fun ck => (k_api_key (snd ck) =? api_key)%string
                    && negb (c_disabled (fst ck)))
    (join same_community (community_table d) (api_key_table d)).

(** The [WHERE] clause shared by [get_community_from_owner] and
    [owner_exists]. *)
Definition owned_enabled (steam_id : string) (d : Database)
  : list community_row :=
  filter (fun c => (c_owner_id c =? steam_id)%string && negb (c_disabled c))
    (community_table d).

(** [fetch_val]: the first column of the first row, [None] without rows. *)
Definition fetch_val {A B} (column : A -> B) (rows : list A) : option B :=
  option_map column (hd_error rows).

(** What the [UPDATE] of [Community.disable] makes of a row. *)
Definition disabled_row (name : string) (c : community_row)
  : community_row :=
  if (c_community_name c =? name)%string
  then mk_community (c_community_name c) (c_owner_id c) true (c_demos c)
         (c_timestamp c)
  else c.

(** The [UPDATE] of [Community.disable]. *)
Definition update_disabled (name : string) (d : Database) : Database :=
  mk_db (map (disabled_row name) (community_table d))
    (api_key_table d) (scoreboard_total_table d) (scoreboard_table d)
    (user_table d) (update_table d).

Definition set_api_key (key : string) (k : api_key_row) : api_key_row :=
  mk_api_key key (k_owner_id k) (k_timestamp k) (k_community_name k)
    (k_master k).

(** An [UPDATE] of the key column of the rows that [chosen] accepts. *)
Definition update_api_key (chosen : api_key_row -> bool) (key : string)
    (d : Database) : Database :=
  mk_db (community_table d)
    (map (fun k => if chosen k then set_api_key key k else k)
       (api_key_table d))
    (scoreboard_total_table d) (scoreboard_table d) (user_table d)
    (update_table d).

(** The [INSERT] into the community table.  The name is the key of the
    table: a second row of the same name is refused. *)
Definition insert_community (row : community_row) (d : Database)
  : Outcome unit * Database :=
  if existsb (fun c => (c_community_name c =? c_community_name row)%string)
       (community_table d)
  then (Raised IntegrityError, d)
  else (Returned tt,
        mk_db (community_table d ++ [row]) (api_key_table d)
          (scoreboard_total_table d) (scoreboard_table d) (user_table d)
          (update_table d)).

(** The [INSERT] into the key table. *)
Definition insert_api_key (row : api_key_row) (d : Database)
  : Outcome unit * Database :=
  (Returned tt,
   mk_db (community_table d) (api_key_table d ++ [row])
     (scoreboard_total_table d) (scoreboard_table d) (user_table d)
     (update_table d)).

(** The [INSERT] into the totals table. *)
Definition insert_scoreboard_total (row : scoreboard_total_row)
    (d : Database) : Outcome unit * Database :=
  (Returned tt,
   mk_db (community_table d) (api_key_table d)
     (scoreboard_total_table d ++ [row]) (scoreboard_table d)
     (user_table d) (update_table d)).

(** ** The community directory: [class Community] *)

(** [Community.match]. *)
Definition Community_match (self : Community) (id : string) : Match :=
  Match_init id (community_name self).

(** [Community.create_match]. *)
Definition Community_create_match (self : Community)
    (team_1_name team_2_name : string) (team_1_side team_2_side : Z)
    (team_1_score team_2_score : Z) (map_name : string) : M Match :=
  id <- uuid4 ;;
  now <- datetime_now ;;
  statement (insert_scoreboard_total
               (mk_total id team_1_name team_2_name team_1_side team_2_side
                  map_name (community_name self) team_1_score team_2_score
                  1 0 now None)) ;;;
  ret (Community_match self id).

(** [Community.regenerate]. *)
Definition Community_regenerate (self : Community) (old_key : string)
  : M string :=
  key <- token_urlsafe 24 ;;
  statement (fun d =>
    (Returned tt,
     update_api_key
       (fun k => (k_community_name k =? community_name self)%string
                 && (k_api_key k =? old_key)%string)
       key d)) ;;;
  ret key.

(** [Community.regenerate_master]. *)
Definition Community_regenerate_master (self : Community) : M string :=
  key <- token_urlsafe 24 ;;
  statement (fun d =>
    (Returned tt,
     update_api_key
       (fun k => (k_community_name k =? community_name self)%string
                 && k_master k)
       key d)) ;;;
  ret key.

(** [Community.exists]. *)
Definition Community_exists (self : Community) : M bool :=
  n <- fetch (count_community (community_name self)) ;;
  ret (0 <? n)%nat.

(** [Community.get]. *)
Definition Community_get (self : Community) : M CommunityModel :=
  row <- fetch (fun d =>
           fetch_one (select_community (community_name self) d)) ;;
  match row with
  | Some row => ret (CommunityModel_of_row row)
  | None => raise InvalidCommunity
  end.

(** [Community.disable]. *)
Definition Community_disable (self : Community) : M unit :=
  statement (fun d => (Returned tt, update_disabled (community_name self) d)).

(** ** Directory-level lookups *)

(** [api_key_to_community]. *)
Definition api_key_to_community (api_key : string) : M (Community * bool) :=
  row <- fetch (fun d => fetch_one (select_api_key api_key d)) ;;
  match row with
  | Some row =>
      ret (Community_init (c_community_name (fst row)), k_master (snd row))
  | None => raise InvalidAPIKey
  end.

(** [get_community_from_owner]. *)
Definition get_community_from_owner (steam_id : string) : M Community :=
  name <- fetch (fun d => fetch_val c_community_name
                            (owned_enabled steam_id d)) ;;
  match name with
  | Some name =>
      if truthy name then ret (Community_init name) else raise NoOwnership
  | None => raise NoOwnership
  end.

(** [owner_exists]. *)
Definition owner_exists (steam_id : string) : M bool :=
  n <- fetch (fun d => List.length (owned_enabled steam_id d)) ;;
  ret (0 <? n)%nat.

(** [create_community]. *)
Definition create_community (steam_id name : string) (disabled demos : bool)
  : M (CommunityModel * Community) :=
  owns <- owner_exists steam_id ;;
  if owns then raise AlreadyCommunity
  else
    now <- datetime_now ;;
    try_except_Exception
      (statement (insert_community
                    (mk_community name steam_id disabled demos now)))
      CommunityTaken
      (fun _ =>
         api_key <- token_urlsafe 24 ;;
         now' <- datetime_now ;;
         statement (insert_api_key
                      (mk_api_key api_key steam_id now' name true)) ;;;
         ret (mk_CommunityModel api_key steam_id disabled name,
              Community_init name)).

(** ** Listing and searching matches: [Community.matches] *)

(** The eleven columns of the [SELECT]. *)
Definition select_columns (t : scoreboard_total_row) : MatchModel :=
  mk_MatchModel (t_match_id t) (t_timestamp t) (t_status t)
    (t_demo_status t) (t_map t) (t_team_1_name t) (t_team_2_name t)
    (t_team_1_score t) (t_team_2_score t) (t_team_1_side t)
    (t_team_2_side t).

(** [ORDER BY timestamp DESC] or [ASC]: does [a] go before [b]? *)
Definition precedes (desc : bool) (a b : MatchModel) : bool :=
  if desc then mm_timestamp b <=? mm_timestamp a
  else mm_timestamp a <=? mm_timestamp b.

Fixpoint place (desc : bool) (x : MatchModel) (rows : list MatchModel)
  : list MatchModel :=
  match rows with
  | [] => [x]
  | y :: rest =>
      if precedes desc x y then x :: rows else y :: place desc x rest
  end.

(** Rows of equal timestamp keep the order the engine produced them in. *)
Definition order_by (desc : bool) (rows : list MatchModel)
  : list MatchModel :=
  fold_right (place desc) [] rows.

(** [(page - 1) * limit if page > 1 else 0]. *)
Definition page_offset (page limit : Z) : Z :=
  if 1 <? page then (page - 1) * limit else 0.

(** [.limit(limit).offset(offset)].  The engines disagree on a negative
    [LIMIT]; results are stated for [0 <= limit] only. *)
Definition limit_offset (limit offset : Z) (rows : list MatchModel)
  : list MatchModel :=
  firstn (Z.to_nat limit) (skipn (Z.to_nat offset) rows).

(** The branch without a search term. *)
Definition select_matches (name : string) (d : Database) : list MatchModel :=
  map select_columns
    (filter (fun t => (t_community_name t =? name)%string)
       (scoreboard_total_table d)).

Section Reference_like.

(** The collation: the identity when text is compared byte by byte, a
    case folding when case is ignored. *)
Variable collate : ascii -> ascii.

(** A reference [LIKE] for text of one-byte characters without NUL and
    without backslash, where the engines agree: [%] stands for any run of
    characters, [_] for any one character.  On other text the engines
    differ (characters of several bytes, NUL, the escape character), and
    [Community.matches] below takes the operator of the engine as it
    is. *)
Fixpoint sql_like (pattern : string) : string -> bool :=
  match pattern with
  | EmptyString =>
      fun text => match text with EmptyString => true | _ => false end
  | String p rest =>
      if Ascii.eqb p "%" then
        fix any_run (text : string) : bool :=
          sql_like rest text
          || match text with
             | EmptyString => false
             | String _ text' => any_run text'
             end
      else if Ascii.eqb p "_" then
        fun text =>
          match text with
          | EmptyString => false
          | String _ text' => sql_like rest text'
          end
      else
        fun text =>
          match text with
          | EmptyString => false
          | String c text' =>
              Ascii.eqb (collate p) (collate c) && sql_like rest text'
          end
  end.

End Reference_like.

Section Search.

(** The [LIKE] operator of the engine behind [Sessions.database]:
    [like pattern text] is [text LIKE pattern]. *)
Variable like : string -> string -> bool.

(** ["%{}%".format(search)]. *)
Definition like_search (search : string) : string :=
  "%" ++ search ++ "%".

Definition joined_row : Type :=
  (scoreboard_total_row * scoreboard_row) * user_row.

(** Totals joined with the players' rows and those with the users. *)
Definition search_join (d : Database) : list joined_row :=
  join (fun tp u => (u_steam_id u =? p_steam_id (snd tp))%string)
    (join (fun t p => (p_match_id p =? t_match_id t)%string)
       (scoreboard_total_table d) (scoreboard_table d))
    (user_table d).

(** [scoreboard_total_table.c.name == self.community_name]. *)
Definition search_scope (name : string) (t : scoreboard_total_row)
  : bool :=
  match t_name t with
  | Some n => (n =? name)%string
  | None => false
  end.

(** The [or_] of the search branch. *)
Definition search_hit (search : string) (r : joined_row) : bool :=
  let t := fst (fst r) in
  let u := snd r in
  (t_match_id t =? search)%string
  || like (like_search search) (t_map t)
  || like (like_search search) (t_team_1_name t)
  || like (like_search search) (t_team_2_name t)
  || like (like_search search) (u_name u)
  || (u_steam_id u =? search)%string.

(** The branch with a search term, [DISTINCT] included. *)
Definition select_matches_search (name search : string) (d : Database)
  : list MatchModel :=
  nodup MatchModel_eq_dec
    (map (fun r => select_columns (fst (fst r)))
       (filter (fun r => search_scope name (fst (fst r))
                         && search_hit search r)
          (search_join d))).

(** [Community.matches]. *)
Definition Community_matches (self : Community) (search : option string)
    (page limit : Z) (desc : bool) : M (list (MatchModel * Match)) :=
  let query :=
    match search with
    | Some term =>
        if truthy term
        then select_matches_search (community_name self) term
        else select_matches (community_name self)
    | None => select_matches (community_name self)
    end in
  rows <- fetch (fun d =>
            limit_offset limit (page_offset page limit)
              (order_by desc (query d))) ;;
  ret (map (fun row => (row, Community_match self (mm_match_id row)))
         rows).

End Search.

(** ** The version endpoint: [VersionAPI.get] *)

(** Modelled from the spec: [VersionCache], a lookup keyed by the version
    string; [caches.py] is not part of the sources at hand. *)
Definition cached_value (version : string) (s : Session) : PyValue :=
  match find (fun kv => (fst kv =? version)%string) (cache s) with
  | Some kv => snd kv
  | None => PyNone
  end.

Definition VersionCache_get (version : string) : M PyValue :=
  fun s => (Returned (cached_value version s), s).

Definition VersionCache_set (version : string) (data : PyValue) : M unit :=
  fun s =>
    (Returned tt,
     mk_session (db s) ((version, data) :: cache s) (faults s)
       (statements s) (entropy s) (draws s) (clock s) (ticks s)).

(** The methods of the query builder's select object that the sources
    call.  Reading any other attribute of it raises [AttributeError]. *)
Definition select_methods : list string :=
  ["select_from"; "where"; "distinct"; "order_by"; "limit"; "offset"].

Definition select_getattr (attr : string) : M unit :=
  if existsb (String.eqb attr) select_methods
  then ret tt
  else raise AttributeError.

(** The [SELECT] of the endpoint: [update_table.c.version >= version],
    versions compared as text. *)
Definition select_update_message (version : string) (d : Database)
  : option string :=
  fetch_val v_message
    (filter (fun u => String.leb version (v_version u)) (update_table d)).

(** The end of the handler, from [if message:] on. *)
Definition version_reply (version : string) (cache_get : PyValue)
    (message : option string) : M HTTPResponse :=
  if match message with Some m => truthy m | None => false end
  then
    let data := PyDict [("message", cache_get)] in
    VersionCache_set version data ;;;
    ret (response data)
  else ret (error_response "InvalidVersion").

(** [VersionAPI.get], for [request.path_params["version"] = version].
    The query is built with [.select_form(...)]. *)
Definition VersionAPI_get (version : string) : M HTTPResponse :=
  cache_get <- VersionCache_get version ;;
  if py_truthy cache_get then ret (response cache_get)
  else
    select_getattr "select_form" ;;;
    message <- fetch (select_update_message version) ;;
    version_reply version cache_get message.

(** ** The owner and creation endpoints: [routes/api/community.py] *)

(** Values of the bodies these endpoints answer with. *)
Inductive JsonValue : Type :=
| JsonString (s : string)
| JsonBool (b : bool).

(** [response(data)] of the [api] package; [response()] carries no data. *)
Inductive ApiResponse : Type :=
| api_response (data : option (list (string * JsonValue))).

(** Modelled from the spec: [community_to_dict], which is not part of the
    sources at hand; the owner's view of a community is
    [{api_key, owner_id, disabled, community_name}]. *)
Definition community_to_dict (m : CommunityModel)
  : list (string * JsonValue) :=
  [("api_key", JsonString (cm_api_key m));
   ("owner_id", JsonString (cm_owner_id m));
   ("disabled", JsonBool (cm_disabled m));
   ("community_name", JsonString (cm_community_name m))].

(** [CommunityOwnerAPI.get], for [request.state.community = community]:
    [InvalidCommunity] is caught and raised again. *)
Definition CommunityOwnerAPI_get (community : Community) : M ApiResponse :=
  fun s =>
    match Community_get community s with
    | (Returned m, s') =>
        (Returned (api_response (Some (community_to_dict m))), s')
    | (Raised InvalidCommunity, s') => (Raised InvalidCommunity, s')
    | (Raised e, s') => (Raised e, s')
    end.

(** [CommunityOwnerAPI.delete]. *)
Definition CommunityOwnerAPI_delete (community : Community)
  : M ApiResponse :=
  Community_disable community ;;;
  ret (api_response None).

(** [CommunityOwnerAPI.post]. *)
Definition CommunityOwnerAPI_post (community : Community) : M ApiResponse :=
  key <- Community_regenerate_master community ;;
  ret (api_response (Some [("master_api_key", JsonString key)])).

(** The arguments that [use_args] hands to [CommunityAPI.post]: the name
    is required, the flag may be missing. *)
Record community_args : Type := mk_community_args {
  arg_community_name : string;
  arg_demos : option bool }.

(** [CommunityAPI.post], for [request.session["steam_id"] = steam_id]:
    [create_community(steam_id=..., **parameters)], the parameters left
    out taking the defaults of [create_community]. *)
Definition CommunityAPI_post (steam_id : string)
    (parameters : community_args) : M ApiResponse :=
  created <- create_community steam_id (arg_community_name parameters)
               false
               match arg_demos parameters with
               | Some demos => demos
               | None => true
               end ;;
  ret (api_response (Some (community_to_dict (fst created)))).

(** ** Predicates of the statements to come *)

(** A community row of the given name joined with a master key row. *)
Definition master_join (d : Database) (name : string)
    (c : community_row) (k : api_key_row) : Prop :=
  In c (community_table d) /\ In k (api_key_table d)
  /\ c_community_name c = name /\ k_community_name k = name
  /\ k_master k = true.

(** Key strings are globally unique (data model of the spec). *)
Definition unique_keys (d : Database) : Prop :=
  NoDup (map k_api_key (api_key_table d)).

(** At most one community that is not disabled per owner (data model of
    the spec). *)
Definition one_enabled_per_owner (d : Database) : Prop :=
  forall c1 c2,
    In c1 (community_table d) -> In c2 (community_table d) ->
    c_owner_id c1 = c_owner_id c2 ->
    c_disabled c1 = false -> c_disabled c2 = false ->
    c_community_name c1 = c_community_name c2.


(** The identity owns a community that is not disabled. *)
Definition owns_enabled (d : Database) (steam_id : string) : Prop :=
  exists c, In c (community_table d)
            /\ c_owner_id c = steam_id /\ c_disabled c = false.

(** A community row carries the name. *)
Definition name_taken (d : Database) (name : string) : Prop :=
  exists c, In c (community_table d) /\ c_community_name c = name.

(** The community insert of [create_community], the second statement of
    the call, raises [e]: the persistence layer fails with [e], or the
    name is taken and [e] is the integrity error. *)
Definition community_insert_raises (s : Session) (name : string)
    (e : PyExn) : Prop :=
  faults s (S (statements s)) = Some e
  \/ (faults s (S (statements s)) = None
      /\ name_taken (db s) name /\ e = IntegrityError).

(** The token drawn next is the key of no row. *)
Definition fresh_token (s : Session) : Prop :=
  ~ In (entropy s (draws s)) (map k_api_key (api_key_table (db s))).

(** [a] may stand before [b] under [ORDER BY timestamp]. *)
Definition timestamp_order (desc : bool) (a b : MatchModel) : Prop :=
  if desc then mm_timestamp b <= mm_timestamp a
  else mm_timestamp a <= mm_timestamp b.

(** What [Community.matches] yields for the rows of a result. *)
Definition yielded (self : Community) (rows : list MatchModel)
  : list (MatchModel * Match) :=
  map (fun row => (row, Community_match self (mm_match_id row))) rows.

(** The text holds neither of the wildcards of [LIKE]. *)
Fixpoint plain_text (text : string) : bool :=
  match text with
  | EmptyString => true
  | String c rest =>
      negb (Ascii.eqb c "%") && negb (Ascii.eqb c "_") && plain_text rest
  end.

(** The text as the collation sees it. *)
Fixpoint collated (collate : ascii -> ascii) (text : string) : string :=
  match text with
  | EmptyString => EmptyString
  | String c rest => String (collate c) (collated collate rest)
  end.

(** [term] occurs in [text], up to the collation. *)
Definition contains_text (collate : ascii -> ascii) (term text : string)
  : Prop :=
  exists before occurrence after,
    text = (before ++ occurrence ++ after)%string
    /\ collated collate occurrence = collated collate term.




(** Community names are unique: the name is the key of the table. *)
Definition unique_names (d : Database) : Prop :=
  NoDup (map c_community_name (community_table d)).

(** Every key row belongs to a community of the table (ownership is by
    foreign key). *)
Definition keys_reference_communities (d : Database) : Prop :=
  forall k, In k (api_key_table d) -> name_taken d (k_community_name k).

(** The database once [create_community] has run both inserts. *)
Definition created_db (d : Database) (steam_id name : string)
    (disabled demos : bool) (now : Z) (api_key : string) (now' : Z)
  : Database :=
  mk_db (community_table d ++ [mk_community name steam_id disabled demos now])
    (api_key_table d ++ [mk_api_key api_key steam_id now' name true])
    (scoreboard_total_table d) (scoreboard_table d) (user_table d)
    (update_table d).

(** The database once only the community insert has run. *)
Definition half_created_db (d : Database) (steam_id name : string)
    (disabled demos : bool) (now : Z) : Database :=
  mk_db (community_table d ++ [mk_community name steam_id disabled demos now])
    (api_key_table d) (scoreboard_total_table d) (scoreboard_table d)
    (user_table d) (update_table d).

(** ** Sample sessions *)

Definition empty_db : Database := mk_db [] [] [] [] [] [].

Definition sample_tokens (n : nat) : string :=
  match n with
  | O => "K1"
  | S O => "K2"
  | _ => "K3"
  end.

(** A session over [d] in which every statement is answered. *)
Definition session_of (d : Database) : Session :=
  mk_session d [] (fun _ => None) 0 sample_tokens 0 Z.of_nat 0.

(** A session over the empty database in which the connection is lost at
    the second statement. *)
Definition lost_connection : Session :=
  mk_session empty_db []
    (fun n => if (n =? 1)%nat then Some OperationalError else None)
    0 sample_tokens 0 Z.of_nat 0.

(** One enabled community, [alpha] of owner [S1], with its master key. *)
Definition alpha_db : Database :=
  mk_db [mk_community "alpha" "S1" false true 0]
    [mk_api_key "K0" "S1" 0 "alpha" true] [] [] [] [].

(** The same community once disabled. *)
Definition alpha_disabled_db : Database :=
  mk_db [mk_community "alpha" "S1" true true 0]
    [mk_api_key "K0" "S1" 0 "alpha" true] [] [] [] [].

(** A session over [alpha_db] whose token source repeats the stored key. *)
Definition repeating_tokens : Session :=
  mk_session alpha_db [] (fun _ => None) 0 (fun _ => "K0") 0 Z.of_nat 0.

(** A match of [alpha] nobody has played in yet. *)
Definition lonely_match_db : Database :=
  mk_db [mk_community "alpha" "S1" false true 0]
    [mk_api_key "K0" "S1" 0 "alpha" true]
    [mk_total "m1" "A" "B" 2 3 "mirage" "alpha" 16 14 1 0 100
       (Some "alpha")]
    [] [] [].


(** The same match and player, the totals row as [create_match] writes
    it. *)
Definition created_match_db : Database :=
  mk_db [mk_community "alpha" "S1" false true 0]
    [mk_api_key "K0" "S1" 0 "alpha" true]
    [mk_total "m1" "A" "B" 2 3 "mirage" "alpha" 16 14 1 0 100 None]
    [mk_scoreboard "m1" "S9"] [mk_user "S9" "bob"] [].

(** The columns of that match. *)
Definition m1_columns : MatchModel :=
  mk_MatchModel "m1" 100 1 0 "mirage" "A" "B" 16 14 2 3.

(** A binary collation. *)
Definition binary (c : ascii) : ascii := c.


(** An update message for version [1.0], nothing cached. *)
Definition update_db : Database :=
  mk_db [] [] [] [] [] [mk_update "1.0" "Update available"].

(** Twelve matches of [alpha], played at the times 1 to 12 and stored in
    that order, the match of time [n] under the [n]-th letter. *)
Definition twelve_db : Database :=
  mk_db [mk_community "alpha" "S1" false true 0]
    [mk_api_key "K0" "S1" 0 "alpha" true]
    (map (fun n =>
            mk_total (String (ascii_of_nat (96 + n)) EmptyString) "A" "B"
              2 3 "mirage" "alpha" 16 14 1 0 (Z.of_nat n) (Some "alpha"))
       (seq 1 12))
    [] [] [].

(** An enabled community whose name is the empty string. *)
Definition nameless_db : Database :=
  mk_db [mk_community "" "S1" false true 0]
    [mk_api_key "K0" "S1" 0 "" true] [] [] [] [].

(** Two enabled communities, each with its master key. *)
Definition two_db : Database :=
  mk_db [mk_community "alpha" "S1" false true 0;
         mk_community "beta" "S2" false true 1]
    [mk_api_key "K0" "S1" 0 "alpha" true;
     mk_api_key "K9" "S2" 1 "beta" true] [] [] [] [].

(** * Properties *)

(** ** Lists and joins *)

Lemma In_join {A B} (on : A -> B -> bool) (l : list A) (r : list B) a b :
  In (a, b) (join on l r) <-> In a l /\ In b r /\ on a b = true.
Proof.
  unfold join. rewrite in_flat_map. split.
  - intros [x [Hx Hab]]. apply in_map_iff in Hab.
    destruct Hab as [y [Heq Hy]]. inversion Heq; subst.
    apply filter_In in Hy. tauto.
  - intros [Ha [Hb Hon]]. exists a. split; [assumption|].
    apply in_map. apply filter_In. tauto.
Qed.

Lemma fetch_one_None {A} (rows : list A) :
  fetch_one rows = None <-> forall x, ~ In x rows.
Proof.
  destruct rows as [|x rows]; simpl; split; intros H; try reflexivity.
  - intros y [].
  - discriminate.
  - exfalso. apply (H x). now left.
Qed.

Lemma fetch_one_Some {A} (rows : list A) x :
  fetch_one rows = Some x -> In x rows.
Proof.
  destruct rows; simpl; intros H; inversion H. now left.
Qed.

Lemma map_key_injective {A B} (f : A -> B) (l : list A) a b :
  NoDup (map f l) -> In a l -> In b l -> f a = f b -> a = b.
Proof.
  induction l as [|x l IH]; simpl; intros Hnd Ha Hb Hf; [contradiction|].
  inversion Hnd as [|? ? Hnotin Hnd']; subst.
  destruct Ha as [Ha|Ha], Hb as [Hb|Hb]; subst.
  - reflexivity.
  - exfalso. apply Hnotin. rewrite Hf. now apply in_map.
  - exfalso. apply Hnotin. rewrite <- Hf. now apply in_map.
  - now apply IH.
Qed.

(** ** Running a statement *)

Lemma statement_answered {A} (sem : Database -> Outcome A * Database) s :
  faults s (statements s) = None ->
  statement sem s
  = (fst (sem (db s)), next_statement (with_db s (snd (sem (db s))))).
Proof.
  unfold statement. intros ->. now destruct (sem (db s)).
Qed.

Lemma statement_failed {A} (sem : Database -> Outcome A * Database) s e :
  faults s (statements s) = Some e ->
  statement sem s = (Raised e, next_statement s).
Proof.
  unfold statement. now intros ->.
Qed.

Lemma fetch_answered {A} (q : Database -> A) s :
  faults s (statements s) = None ->
  fetch q s = (Returned (q (db s)), next_statement (with_db s (db s))).
Proof.
  intros H. unfold fetch. now rewrite statement_answered.
Qed.

Lemma fetch_keeps_db {A} (q : Database -> A) s :
  db (snd (fetch q s)) = db s.
Proof.
  unfold fetch, statement. now destruct (faults s (statements s)).
Qed.

Lemma bind_fetch_keeps_db {A B} (q : Database -> A) (k : A -> M B) s :
  (forall a s', db (snd (k a s')) = db s') ->
  db (snd (bind (fetch q) k s)) = db s.
Proof.
  intros Hk. unfold bind. pose proof (fetch_keeps_db q s) as Hf.
  destruct (fetch q s) as [[a|e] s']; simpl in *; [|assumption].
  now rewrite Hk.
Qed.

(** The lookups leave the database as it is, answered or not. *)
Lemma lookups_keep_db (self : Community) (key steam_id : string) s :
  db (snd (Community_get self s)) = db s
  /\ db (snd (Community_exists self s)) = db s
  /\ db (snd (api_key_to_community key s)) = db s
  /\ db (snd (get_community_from_owner steam_id s)) = db s.
Proof.
  repeat split; apply bind_fetch_keeps_db.
  - now intros [row|] s'.
  - reflexivity.
  - now intros [row|] s'.
  - intros [name|] s'; [|reflexivity]. now destruct (truthy name).
Qed.

(** ** [Community.get] *)

Lemma select_community_In d name c k :
  In (c, k) (select_community name d) <-> master_join d name c k.
Proof.
  unfold select_community, master_join, same_community.
  rewrite filter_In, In_join. simpl.
  rewrite andb_true_iff, !String.eqb_eq. split.
  - intros [[Hc [Hk Hck]] [Hn Hm]]. repeat split; congruence.
  - intros [Hc [Hk [Hn [Hkn Hm]]]]. repeat split; congruence.
Qed.

Lemma Community_get_run self s :
  faults s (statements s) = None ->
  fst (Community_get self s)
  = match fetch_one (select_community (community_name self) (db s)) with
    | Some row => Returned (CommunityModel_of_row row)
    | None => Raised InvalidCommunity
    end.
Proof.
  intros H. unfold Community_get, bind. rewrite fetch_answered by assumption.
  now destruct (fetch_one _).
Qed.

(** C4.  [Community.get] returns the summary built from a community row of
    that name joined with a master key row whenever such a joined row
    exists; the joined row is not asked to be enabled, and a community
    whose rows are all disabled is returned with [disabled] set; it raises
    [InvalidCommunity] exactly when no joined row exists. *)
Theorem Community_get_joined_row (self : Community) (s : Session) :
  faults s (statements s) = None ->
  let joined := master_join (db s) (community_name self) in
  ((exists c k, joined c k) ->
   exists c k, joined c k
     /\ fst (Community_get self s)
        = Returned (mk_CommunityModel (k_api_key k) (k_owner_id k)
                      (c_disabled c) (community_name self)))
  /\ ((exists c k, joined c k) ->
      (forall c, In c (community_table (db s)) ->
                 c_community_name c = community_name self ->
                 c_disabled c = true) ->
      exists m, fst (Community_get self s) = Returned m
                /\ cm_disabled m = true)
  /\ (fst (Community_get self s) = Raised InvalidCommunity
      <-> ~ exists c k, joined c k).
Proof.
  intros Hq joined.
  assert (Hfound : (exists c k, joined c k) ->
            exists c k, joined c k
              /\ fetch_one (select_community (community_name self) (db s))
                 = Some (c, k)).
  { intros [c [k Hck]]. apply select_community_In in Hck.
    destruct (fetch_one _) as [[c' k']|] eqn:E.
    - exists c', k'. split; [|reflexivity].
      apply select_community_In. now apply fetch_one_Some.
    - exfalso. exact (proj1 (fetch_one_None _) E _ Hck). }
  rewrite Community_get_run by assumption.
  split; [|split].
  - intros Hex. destruct (Hfound Hex) as [c [k [Hj ->]]].
    exists c, k. split; [assumption|].
    unfold CommunityModel_of_row; simpl.
    destruct Hj as [_ [_ [-> _]]]. reflexivity.
  - intros Hex Hall. destruct (Hfound Hex) as [c [k [Hj ->]]].
    eexists. split; [reflexivity|]. simpl.
    destruct Hj as [Hc [_ [Hn _]]]. now apply Hall.
  - split.
    + intros Hr [c [k Hck]]. apply select_community_In in Hck.
      destruct (fetch_one _) eqn:E; [discriminate|].
      exact (proj1 (fetch_one_None _) E _ Hck).
    + intros Hno. destruct (fetch_one _) as [[c k]|] eqn:E; [|reflexivity].
      exfalso. apply Hno. exists c, k.
      apply select_community_In. now apply fetch_one_Some.
Qed.

(** ** [api_key_to_community] *)

Lemma select_api_key_In d key c k :
  In (c, k) (select_api_key key d)
  <-> In c (community_table d) /\ In k (api_key_table d)
      /\ c_community_name c = k_community_name k
      /\ k_api_key k = key /\ c_disabled c = false.
Proof.
  unfold select_api_key, same_community.
  rewrite filter_In, In_join. simpl.
  rewrite andb_true_iff, negb_true_iff, !String.eqb_eq. tauto.
Qed.

Lemma api_key_to_community_run key s :
  faults s (statements s) = None ->
  fst (api_key_to_community key s)
  = match fetch_one (select_api_key key (db s)) with
    | Some row =>
        Returned (Community_init (c_community_name (fst row)),
                  k_master (snd row))
    | None => Raised InvalidAPIKey
    end.
Proof.
  intros H. unfold api_key_to_community, bind.
  rewrite fetch_answered by assumption. now destruct (fetch_one _).
Qed.






(** ** [Community.disable] and the lookups that follow it *)

Lemma join_map_left {A B} (on : A -> B -> bool) (g : A -> A) l r :
  (forall a b, on (g a) b = on a b) ->
  join on (map g l) r = map (fun ab => (g (fst ab), snd ab)) (join on l r).
Proof.
  intros Hon. unfold join. induction l as [|a l IH]; simpl; [reflexivity|].
  rewrite map_app, IH, map_map. f_equal.
  now rewrite (filter_ext _ _ (Hon a)).
Qed.

Lemma update_disabled_rows name d :
  community_table (update_disabled name d)
  = map (disabled_row name) (community_table d).
Proof. reflexivity. Qed.

Lemma disabled_row_name name c :
  c_community_name (disabled_row name c) = c_community_name c.
Proof.
  unfold disabled_row. now destruct (c_community_name c =? name)%string.
Qed.

Lemma disabled_row_enabled name c :
  c_disabled (disabled_row name c) = false ->
  c_community_name c <> name /\ disabled_row name c = c
  /\ c_disabled c = false.
Proof.
  unfold disabled_row.
  destruct (c_community_name c =? name)%string eqn:E; simpl.
  - discriminate.
  - apply String.eqb_neq in E. tauto.
Qed.

Lemma filter_inhabited {A} (p : A -> bool) l x :
  In x l -> p x = true -> (0 <? List.length (filter p l))%nat = true.
Proof.
  intros Hin Hp. assert (H : In x (filter p l)) by (apply filter_In; tauto).
  destruct (filter p l); [contradiction|reflexivity].
Qed.

Lemma select_community_disabled name d :
  select_community name (update_disabled name d)
  = map (fun ck => (disabled_row name (fst ck), snd ck))
      (select_community name d).
Proof.
  unfold select_community, update_disabled.
  cbn [community_table api_key_table]. rewrite join_map_left.
  - rewrite filter_map_swap. f_equal. apply filter_ext.
    intros [c k]; cbn [fst snd]. now rewrite disabled_row_name.
  - intros c k. unfold same_community. now rewrite disabled_row_name.
Qed.

Lemma get_community_from_owner_run steam_id s :
  faults s (statements s) = None ->
  fst (get_community_from_owner steam_id s)
  = match fetch_val c_community_name (owned_enabled steam_id (db s)) with
    | Some name =>
        if truthy name then Returned (Community_init name)
        else Raised NoOwnership
    | None => Raised NoOwnership
    end.
Proof.
  intros H. unfold get_community_from_owner, bind.
  rewrite fetch_answered by assumption.
  destruct (fetch_val _ _) as [n|]; [|reflexivity]. now destruct (truthy n).
Qed.

Lemma Community_exists_run self s :
  faults s (statements s) = None ->
  fst (Community_exists self s)
  = Returned (0 <? count_community (community_name self) (db s))%nat.
Proof.
  intros H. unfold Community_exists, bind.
  now rewrite fetch_answered by assumption.
Qed.

Lemma Community_disable_run self s :
  faults s (statements s) = None ->
  Community_disable self s
  = (Returned tt,
     next_statement
       (with_db s (update_disabled (community_name self) (db s)))).
Proof.
  intros H. unfold Community_disable. now rewrite statement_answered.
Qed.

(** C6.  Once an enabled community is disabled, and as long as the
    database stays as [disable] left it, every key of the community is
    refused with [InvalidAPIKey], its owner is answered [NoOwnership],
    [exists] still answers true, and [get] still returns the summary it
    returned before, now flagged disabled.  Key strings are unique and an
    owner has at most one enabled community, as the data model says. *)
Theorem Community_disable_lookups
    (self : Community) (s : Session) (c : community_row) :
  faults s (statements s) = None ->
  unique_keys (db s) ->
  one_enabled_per_owner (db s) ->
  In c (community_table (db s)) ->
  c_community_name c = community_name self ->
  c_disabled c = false ->
  fst (Community_disable self s) = Returned tt
  /\ forall s',
       db s' = db (snd (Community_disable self s)) ->
       faults s' (statements s') = None ->
       (forall k, In k (api_key_table (db s)) ->
                  k_community_name k = community_name self ->
                  fst (api_key_to_community (k_api_key k) s')
                  = Raised InvalidAPIKey)
       /\ fst (get_community_from_owner (c_owner_id c) s')
          = Raised NoOwnership
       /\ fst (Community_exists self s') = Returned true
       /\ (forall m, fst (Community_get self s) = Returned m ->
                     fst (Community_get self s')
                     = Returned (mk_CommunityModel (cm_api_key m)
                                   (cm_owner_id m) true
                                   (cm_community_name m))).
Proof.
  intros Hq Hu Ho Hc Hn He.
  rewrite Community_disable_run by assumption. simpl.
  split; [reflexivity|]. intros s' Hdb Hq'.
  set (name := community_name self) in *.
  split; [|split; [|split]].
  - intros k Hk Hkn. rewrite api_key_to_community_run, Hdb by assumption.
    destruct (fetch_one _) as [[c' k']|] eqn:E; [|reflexivity].
    exfalso. apply fetch_one_Some, select_api_key_In in E.
    destruct E as [Hc' [Hk' [Hck [Hkey Hen]]]].
    rewrite update_disabled_rows in Hc'. apply in_map_iff in Hc'.
    destruct Hc' as [c0 [<- Hc0]]. simpl in Hk'.
    apply disabled_row_enabled in Hen. destruct Hen as [Hne _].
    rewrite disabled_row_name in Hck.
    assert (k' = k) by (apply (map_key_injective _ _ _ _ Hu); assumption).
    congruence.
  - rewrite get_community_from_owner_run, Hdb by assumption.
    destruct (owned_enabled _ _) as [|c' rest] eqn:E; [reflexivity|].
    exfalso. assert (Hin : In c' (owned_enabled (c_owner_id c)
                                    (update_disabled name (db s))))
      by (rewrite E; now left).
    unfold owned_enabled in Hin. apply filter_In in Hin.
    destruct Hin as [Hc' Hp]. rewrite update_disabled_rows in Hc'.
    apply in_map_iff in Hc'. destruct Hc' as [c0 [<- Hc0]].
    apply andb_true_iff in Hp. destruct Hp as [Hown Hen].
    apply negb_true_iff, disabled_row_enabled in Hen.
    destruct Hen as [Hne [Hsame He0]]. rewrite Hsame in Hown.
    apply String.eqb_eq in Hown.
    apply Hne. rewrite <- Hn. now apply Ho.
  - rewrite Community_exists_run, Hdb by assumption. f_equal.
    unfold count_community. rewrite update_disabled_rows.
    apply (filter_inhabited _ _ (disabled_row name c)).
    + now apply in_map.
    + rewrite disabled_row_name. now apply String.eqb_eq.
  - intros m. rewrite !Community_get_run, Hdb by assumption.
    fold name. rewrite select_community_disabled.
    destruct (select_community name (db s)) as [|[c' k'] rest] eqn:E;
      simpl; [discriminate|].
    intros Hm. inversion Hm; subst m. unfold CommunityModel_of_row; simpl.
    assert (Hin : In (c', k') (select_community name (db s)))
      by (rewrite E; now left).
    apply select_community_In in Hin. destruct Hin as [_ [_ [Hcn _]]].
    rewrite disabled_row_name. unfold disabled_row.
    apply String.eqb_eq in Hcn. now rewrite Hcn.
Qed.

(** ** [create_community] *)

Lemma owned_enabled_empty d steam_id :
  owned_enabled steam_id d = [] <-> ~ owns_enabled d steam_id.
Proof.
  unfold owns_enabled, owned_enabled. split.
  - intros E [c [Hc [Ho Hd]]].
    assert (H : In c (filter (fun c => (c_owner_id c =? steam_id)%string
                                       && negb (c_disabled c))
                        (community_table d))).
    { apply filter_In. split; [assumption|].
      apply andb_true_iff. rewrite negb_true_iff. split; [|assumption].
      now apply String.eqb_eq. }
    rewrite E in H. contradiction.
  - intros Hno. destruct (filter _ _) as [|c rest] eqn:E; [reflexivity|].
    exfalso. apply Hno. exists c.
    assert (H : In c (c :: rest)) by now left.
    rewrite <- E in H. apply filter_In in H. destruct H as [Hc Hp].
    apply andb_true_iff in Hp. rewrite negb_true_iff, String.eqb_eq in Hp.
    tauto.
Qed.

Lemma owner_exists_run steam_id s :
  faults s (statements s) = None ->
  owner_exists steam_id s
  = (Returned (0 <? List.length (owned_enabled steam_id (db s)))%nat,
     next_statement (with_db s (db s))).
Proof.
  intros H. unfold owner_exists, bind. now rewrite fetch_answered.
Qed.

Lemma owner_exists_true steam_id d :
  (0 <? List.length (owned_enabled steam_id d))%nat = true
  <-> owns_enabled d steam_id.
Proof.
  pose proof (owned_enabled_empty d steam_id) as H.
  destruct (owned_enabled steam_id d) as [|c rest] eqn:E; simpl.
  - split; [discriminate|]. intros Ho. exfalso. now apply (proj1 H).
  - split; [|reflexivity]. intros _.
    assert (Hin : In c (owned_enabled steam_id d)) by (rewrite E; now left).
    unfold owned_enabled in Hin. apply filter_In in Hin.
    destruct Hin as [Hc Hp]. apply andb_true_iff in Hp.
    rewrite negb_true_iff, String.eqb_eq in Hp. exists c. tauto.
Qed.

Lemma insert_community_taken row d :
  name_taken d (c_community_name row) ->
  insert_community row d = (Raised IntegrityError, d).
Proof.
  intros [c [Hc Hn]]. unfold insert_community.
  assert (E : existsb (fun c0 => (c_community_name c0
                                  =? c_community_name row)%string)
                (community_table d) = true).
  { apply existsb_exists. exists c. now rewrite String.eqb_eq. }
  now rewrite E.
Qed.

Lemma insert_community_free row d :
  ~ name_taken d (c_community_name row) ->
  insert_community row d
  = (Returned tt,
     mk_db (community_table d ++ [row]) (api_key_table d)
       (scoreboard_total_table d) (scoreboard_table d) (user_table d)
       (update_table d)).
Proof.
  intros Hfree. unfold insert_community.
  destruct (existsb _ _) eqn:E; [|reflexivity].
  exfalso. apply Hfree. apply existsb_exists in E.
  destruct E as [c [Hc Hn]]. exists c. now rewrite String.eqb_eq in Hn.
Qed.

(** C2.  The persistence layer answering, [create_community] raises
    [AlreadyCommunity] and leaves the database as it was when the identity
    owns an enabled community; otherwise it raises [CommunityTaken], the
    database again unchanged, when the name is taken; otherwise it appends
    one community row and then one master key row for that community and
    returns the summary with the handle. *)
Theorem create_community_cases
    (steam_id name : string) (disabled demos : bool) (s : Session) :
  quiet s ->
  let r := create_community steam_id name disabled demos s in
  (owns_enabled (db s) steam_id ->
   fst r = Raised AlreadyCommunity /\ db (snd r) = db s)
  /\ (~ owns_enabled (db s) steam_id -> name_taken (db s) name ->
      fst r = Raised CommunityTaken /\ db (snd r) = db s)
  /\ (~ owns_enabled (db s) steam_id -> ~ name_taken (db s) name ->
      let api_key := entropy s (draws s) in
      fst r = Returned (mk_CommunityModel api_key steam_id disabled name,
                        Community_init name)
      /\ db (snd r)
         = mk_db
             (community_table (db s)
              ++ [mk_community name steam_id disabled demos
                    (clock s (ticks s))])
             (api_key_table (db s)
              ++ [mk_api_key api_key steam_id (clock s (S (ticks s)))
                    name true])
             (scoreboard_total_table (db s)) (scoreboard_table (db s))
             (user_table (db s)) (update_table (db s))).
Proof.
  intros Hq r. subst r. unfold create_community, bind.
  rewrite owner_exists_run by apply Hq.
  pose proof (owner_exists_true steam_id (db s)) as Hown.
  destruct (0 <? List.length (owned_enabled steam_id (db s)))%nat.
  - split; [|split].
    + intros _. now split.
    + intros Hno. exfalso. apply Hno. now apply Hown.
    + intros Hno. exfalso. apply Hno. now apply Hown.
  - unfold datetime_now, try_except_Exception, token_urlsafe.
    rewrite statement_answered by apply Hq.
    cbn [db next_statement with_db ticks clock].
    split; [|split].
    + intros Ho. apply Hown in Ho. discriminate.
    + intros _ Htaken.
      rewrite insert_community_taken by exact Htaken. now split.
    + intros _ Hfree.
      rewrite insert_community_free by exact Hfree. cbn [fst snd].
      rewrite statement_answered by apply Hq. now split.
Qed.

Lemma create_community_query_fails steam_id name disabled demos s e :
  faults s (statements s) = Some e ->
  fst (create_community steam_id name disabled demos s) = Raised e
  /\ db (snd (create_community steam_id name disabled demos s)) = db s.
Proof.
  intros H. unfold create_community, owner_exists, fetch, bind.
  rewrite (statement_failed _ _ e) by assumption. now split.
Qed.

(** C3, as the code has it.  When the ownership query is answered and
    finds no enabled community of the identity, every exception of the
    [Exception] hierarchy that the community insert raises, the integrity
    error of a taken name like any other failure of the persistence layer,
    becomes [CommunityTaken], and the database stays as it was.  An
    exception outside that hierarchy keeps propagating, and so does a
    failure of the key insert, which leaves the community row behind. *)
Theorem create_community_insert_failures
    (steam_id name : string) (disabled demos : bool) (s : Session) :
  faults s (statements s) = None ->
  ~ owns_enabled (db s) steam_id ->
  let r := create_community steam_id name disabled demos s in
  (forall e, community_insert_raises s name e ->
             isinstance_Exception e = true ->
             fst r = Raised CommunityTaken /\ db (snd r) = db s)
  /\ (forall e, faults s (S (statements s)) = Some e ->
                isinstance_Exception e = false ->
                fst r = Raised e /\ db (snd r) = db s)
  /\ (forall e, faults s (S (statements s)) = None ->
                ~ name_taken (db s) name ->
                faults s (S (S (statements s))) = Some e ->
                fst r = Raised e
                /\ community_table (db (snd r))
                   = (community_table (db s)
                      ++ [mk_community name steam_id disabled demos
                            (clock s (ticks s))])%list
                /\ api_key_table (db (snd r)) = api_key_table (db s)).
Proof.
  intros Hq Hno r. subst r. unfold create_community, bind.
  rewrite owner_exists_run by assumption.
  pose proof (owner_exists_true steam_id (db s)) as Hown.
  destruct (0 <? List.length (owned_enabled steam_id (db s)))%nat;
    [exfalso; apply Hno; now apply Hown|].
  unfold datetime_now, try_except_Exception, token_urlsafe.
  split; [|split].
  - intros e [Hf|[Hf [Htaken ->]]] He.
    + rewrite (statement_failed _ _ e) by exact Hf. rewrite He. now split.
    + rewrite statement_answered by exact Hf.
      cbn [db next_statement with_db ticks clock].
      rewrite insert_community_taken by exact Htaken. now split.
  - intros e Hf He.
    rewrite (statement_failed _ _ e) by exact Hf. rewrite He. now split.
  - intros e Hf Hfree Hk.
    rewrite statement_answered by exact Hf.
    cbn [db next_statement with_db ticks clock].
    rewrite insert_community_free by exact Hfree. cbn [fst snd].
    rewrite (statement_failed _ _ e) by exact Hk. now repeat split.
Qed.

Lemma create_community_insert_failures_witness :
  fst (create_community "S1" "alpha" false true lost_connection)
  = Raised CommunityTaken
  /\ db (snd (create_community "S1" "alpha" false true lost_connection))
     = empty_db.
Proof.
  apply (proj1 (create_community_insert_failures "S1" "alpha" false true
                  lost_connection eq_refl
                  (fun H => match H with
                            | ex_intro _ _ (conj F _) => F
                            end))
           OperationalError).
  - left. reflexivity.
  - reflexivity.
Defined.

(** C3, as the claim has it, fails: the connection is lost during the
    community insert, no name is taken, and the caller still gets
    [CommunityTaken] instead of the failure itself. *)
Lemma create_community_hides_lost_connection :
  community_table (db lost_connection) = []
  /\ faults lost_connection (S (statements lost_connection))
     = Some OperationalError
  /\ fst (create_community "S1" "alpha" false true lost_connection)
     = Raised CommunityTaken
  /\ fst (create_community "S1" "alpha" false true lost_connection)
     <> Raised OperationalError.
Proof.
  repeat split; try reflexivity. vm_compute. discriminate.
Qed.

Lemma create_community_cases_witness :
  (fst (create_community "S1" "beta" false true (session_of alpha_db))
   = Raised AlreadyCommunity
   /\ db (snd (create_community "S1" "beta" false true
                 (session_of alpha_db))) = alpha_db)
  /\ (fst (create_community "S2" "alpha" false true (session_of alpha_db))
      = Raised CommunityTaken
      /\ db (snd (create_community "S2" "alpha" false true
                    (session_of alpha_db))) = alpha_db)
  /\ (fst (create_community "S1" "alpha" false true (session_of empty_db))
      = Returned (mk_CommunityModel "K1" "S1" false "alpha",
                  Community_init "alpha")
      /\ db (snd (create_community "S1" "alpha" false true
                    (session_of empty_db)))
         = mk_db [mk_community "alpha" "S1" false true 0]
             [mk_api_key "K1" "S1" 1 "alpha" true] [] [] [] []).
Proof.
  split; [|split].
  - apply (proj1 (create_community_cases "S1" "beta" false true
                    (session_of alpha_db) (fun n => eq_refl))).
    exists (mk_community "alpha" "S1" false true 0). simpl. tauto.
  - apply (proj1 (proj2 (create_community_cases "S2" "alpha" false true
                           (session_of alpha_db) (fun n => eq_refl)))).
    + intros [c [[<-|[]] [Ho _]]]. discriminate.
    + exists (mk_community "alpha" "S1" false true 0). simpl. tauto.
  - apply (proj2 (proj2 (create_community_cases "S1" "alpha" false true
                           (session_of empty_db) (fun n => eq_refl)))).
    + intros [c [[] _]].
    + intros [c [[] _]].
Defined.

(** [create_match] appends one totals row: scoped by [community_name],
    live, without a demo, the column [name] not written. *)
Lemma Community_create_match_row self t1 t2 s1 s2 p1 p2 map_name s :
  faults s (statements s) = None ->
  fst (Community_create_match self t1 t2 s1 s2 p1 p2 map_name s)
  = Returned (Match_init (entropy s (draws s)) (community_name self))
  /\ scoreboard_total_table
       (db (snd (Community_create_match self t1 t2 s1 s2 p1 p2 map_name s)))
     = (scoreboard_total_table (db s)
        ++ [mk_total (entropy s (draws s)) t1 t2 s1 s2 map_name
              (community_name self) p1 p2 1 0 (clock s (ticks s)) None])%list.
Proof.
  intros H.
  unfold Community_create_match, bind, uuid4, token_urlsafe, datetime_now.
  rewrite statement_answered by exact H. now split.
Qed.

(** ** Key rotation: [regenerate] and [regenerate_master] *)

Section Rotation.

Variable d : Database.
Variable chosen : api_key_row -> bool.
Variable key name : string.
Variable k0 : api_key_row.
Variable c : community_row.

Hypothesis keys_unique : unique_keys d.
Hypothesis key_fresh : ~ In key (map k_api_key (api_key_table d)).
Hypothesis k0_row : In k0 (api_key_table d).
Hypothesis k0_chosen : chosen k0 = true.
Hypothesis chosen_rows :
  forall k, In k (api_key_table d) -> chosen k = true ->
            k_community_name k = name /\ k_master k = k_master k0.
Hypothesis c_row : In c (community_table d).
Hypothesis c_name : c_community_name c = name.
Hypothesis c_enabled : c_disabled c = false.

Lemma rotated_key_differs : key <> k_api_key k0.
Proof using key_fresh k0_row.
  intros E. apply key_fresh. rewrite E. now apply in_map.
Qed.

Lemma rotated_new_rows c' k' :
  In (c', k') (select_api_key key (update_api_key chosen key d)) ->
  c_community_name c' = name /\ k_master k' = k_master k0.
Proof using key_fresh chosen_rows.
  intros Hin. apply select_api_key_In in Hin.
  destruct Hin as [_ [Hk' [Hck [Hkey _]]]].
  cbn [api_key_table update_api_key] in Hk'. apply in_map_iff in Hk'.
  destruct Hk' as [k1 [Hk1 Hin1]]. destruct (chosen k1) eqn:E.
  - subst k'. destruct (chosen_rows k1 Hin1 E) as [Hn Hm].
    rewrite Hck. simpl. tauto.
  - subst k'. exfalso. apply key_fresh. rewrite <- Hkey. now apply in_map.
Qed.

Lemma rotated_new_key_resolves :
  exists c' k',
    fetch_one (select_api_key key (update_api_key chosen key d))
    = Some (c', k')
    /\ c_community_name c' = name /\ k_master k' = k_master k0.
Proof using key_fresh k0_row k0_chosen chosen_rows c_row c_name c_enabled.
  assert (Hin : In (c, set_api_key key k0)
                  (select_api_key key (update_api_key chosen key d))).
  { apply select_api_key_In. cbn [community_table api_key_table
                                    update_api_key].
    split; [assumption|]. split.
    - apply in_map_iff. exists k0. now rewrite k0_chosen.
    - simpl. destruct (chosen_rows k0 k0_row k0_chosen) as [Hn _].
      repeat split; congruence. }
  destruct (fetch_one _) as [[c' k']|] eqn:E.
  - exists c', k'. split; [reflexivity|].
    apply rotated_new_rows. now apply fetch_one_Some.
  - exfalso. exact (proj1 (fetch_one_None _) E _ Hin).
Qed.

Lemma rotated_old_key_gone :
  fetch_one (select_api_key (k_api_key k0) (update_api_key chosen key d))
  = None.
Proof using keys_unique key_fresh k0_row k0_chosen.
  apply fetch_one_None. intros [c' k'] Hin.
  apply select_api_key_In in Hin.
  destruct Hin as [_ [Hk' [_ [Hkey _]]]].
  cbn [api_key_table update_api_key] in Hk'. apply in_map_iff in Hk'.
  destruct Hk' as [k1 [Hk1 Hin1]]. destruct (chosen k1) eqn:E.
  - subst k'. simpl in Hkey. now apply rotated_key_differs.
  - subst k'.
    assert (k1 = k0)
      by (apply (map_key_injective _ _ _ _ keys_unique); assumption).
    subst k1. rewrite k0_chosen in E. discriminate.
Qed.

End Rotation.

Lemma Community_regenerate_run self old_key s :
  faults s (statements s) = None ->
  fst (Community_regenerate self old_key s) = Returned (entropy s (draws s))
  /\ db (snd (Community_regenerate self old_key s))
     = update_api_key
         (fun k => (k_community_name k =? community_name self)%string
                   && (k_api_key k =? old_key)%string)
         (entropy s (draws s)) (db s).
Proof.
  intros H. unfold Community_regenerate, bind, token_urlsafe.
  rewrite statement_answered by exact H. now split.
Qed.

Lemma Community_regenerate_master_run self s :
  faults s (statements s) = None ->
  fst (Community_regenerate_master self s) = Returned (entropy s (draws s))
  /\ db (snd (Community_regenerate_master self s))
     = update_api_key
         (fun k => (k_community_name k =? community_name self)%string
                   && k_master k)
         (entropy s (draws s)) (db s).
Proof.
  intros H. unfold Community_regenerate_master, bind, token_urlsafe.
  rewrite statement_answered by exact H. now split.
Qed.

(** Rotation for an enabled community, unique key strings and a drawn
    token that is the key of no row: the token is returned, differs from
    the key stored before, resolves afterwards to the community with the
    master flag of the rotated row, and the replaced key is refused. *)
Lemma rotation_of_enabled (self : Community) (s : Session) (c : community_row) :
  faults s (statements s) = None ->
  unique_keys (db s) ->
  fresh_token s ->
  In c (community_table (db s)) ->
  c_community_name c = community_name self ->
  c_disabled c = false ->
  let key := entropy s (draws s) in
  (forall k0, In k0 (api_key_table (db s)) ->
     k_community_name k0 = community_name self ->
     let r := Community_regenerate self (k_api_key k0) s in
     fst r = Returned key /\ key <> k_api_key k0
     /\ forall s', db s' = db (snd r) -> faults s' (statements s') = None ->
          fst (api_key_to_community key s')
          = Returned (Community_init (community_name self), k_master k0)
          /\ fst (api_key_to_community (k_api_key k0) s')
             = Raised InvalidAPIKey)
  /\ (forall k0, In k0 (api_key_table (db s)) ->
        k_community_name k0 = community_name self ->
        k_master k0 = true ->
        let r := Community_regenerate_master self s in
        fst r = Returned key /\ key <> k_api_key k0
        /\ forall s', db s' = db (snd r) ->
             faults s' (statements s') = None ->
             fst (api_key_to_community key s')
             = Returned (Community_init (community_name self), true)
             /\ fst (api_key_to_community (k_api_key k0) s')
                = Raised InvalidAPIKey).
Proof.
  intros Hq Hu Hfresh Hc Hn He key. split.
  - intros k0 Hk0 Hkn r. subst r.
    destruct (Community_regenerate_run self (k_api_key k0) s Hq) as [Hr Hd].
    set (chosen := fun k => (k_community_name k =? community_name self)%string
                            && (k_api_key k =? k_api_key k0)%string) in *.
    assert (Hch0 : chosen k0 = true).
    { unfold chosen. apply andb_true_iff. now rewrite !String.eqb_eq. }
    assert (Hrows : forall k, In k (api_key_table (db s)) ->
              chosen k = true ->
              k_community_name k = community_name self
              /\ k_master k = k_master k0).
    { intros k Hk Hch. unfold chosen in Hch. apply andb_true_iff in Hch.
      rewrite !String.eqb_eq in Hch. destruct Hch as [Hkc Hkk].
      assert (k = k0) by (apply (map_key_injective _ _ _ _ Hu); assumption).
      subst k. now split. }
    split; [exact Hr|]. split.
    + exact (rotated_key_differs (db s) key k0 Hfresh Hk0).
    + intros s' Hdb Hq'. rewrite !api_key_to_community_run by assumption.
      rewrite Hdb, Hd. fold key. split.
      * destruct (rotated_new_key_resolves (db s) chosen key
                    (community_name self) k0 c Hfresh Hk0 Hch0 Hrows Hc
                    Hn He)
          as [c' [k' [-> [Hcn Hm]]]].
        simpl. now rewrite Hcn, Hm.
      * now rewrite (rotated_old_key_gone (db s) chosen key k0 Hu Hfresh
                       Hk0 Hch0).
  - intros k0 Hk0 Hkn Hmaster r. subst r.
    destruct (Community_regenerate_master_run self s Hq) as [Hr Hd].
    set (chosen := fun k => (k_community_name k =? community_name self)%string
                            && k_master k) in *.
    assert (Hch0 : chosen k0 = true).
    { unfold chosen. apply andb_true_iff. now rewrite String.eqb_eq. }
    assert (Hrows : forall k, In k (api_key_table (db s)) ->
              chosen k = true ->
              k_community_name k = community_name self
              /\ k_master k = k_master k0).
    { intros k Hk Hch. unfold chosen in Hch. apply andb_true_iff in Hch.
      rewrite String.eqb_eq in Hch. destruct Hch as [Hkc Hkm].
      split; congruence. }
    split; [exact Hr|]. split.
    + exact (rotated_key_differs (db s) key k0 Hfresh Hk0).
    + intros s' Hdb Hq'. rewrite !api_key_to_community_run by assumption.
      rewrite Hdb, Hd. fold key. split.
      * destruct (rotated_new_key_resolves (db s) chosen key
                    (community_name self) k0 c Hfresh Hk0 Hch0 Hrows Hc
                    Hn He)
          as [c' [k' [-> [Hcn Hm]]]].
        simpl. now rewrite Hcn, Hm, Hmaster.
      * now rewrite (rotated_old_key_gone (db s) chosen key k0 Hu Hfresh
                       Hk0 Hch0).
Qed.

(** C7, as the claim has it, fails.  A key that is not a key of the
    community rotates nothing, and the key returned is refused; the key
    returned for a disabled community is refused; and a token source that
    repeats the stored key makes the rotation return that very key. *)
Lemma rotation_not_for_every_call :
  (let r := Community_regenerate (Community_init "alpha") "nope"
              (session_of alpha_db) in
   fst r = Returned "K1" /\ db (snd r) = alpha_db
   /\ fst (api_key_to_community "K1" (snd r)) = Raised InvalidAPIKey)
  /\ (let r := Community_regenerate_master (Community_init "alpha")
                 (session_of alpha_disabled_db) in
      fst r = Returned "K1"
      /\ fst (api_key_to_community "K1" (snd r)) = Raised InvalidAPIKey)
  /\ (let r := Community_regenerate_master (Community_init "alpha")
                 repeating_tokens in
      fst r = Returned "K0"
      /\ fst (api_key_to_community "K0" (snd r))
         = Returned (Community_init "alpha", true)).
Proof.
  repeat split; vm_compute; reflexivity.
Qed.

(** ** [Community.matches]: ordering and pages *)

Lemma precedes_order desc a b :
  precedes desc a b = true <-> timestamp_order desc a b.
Proof.
  unfold precedes, timestamp_order. destruct desc; apply Z.leb_le.
Qed.

Lemma precedes_total desc a b :
  precedes desc a b = false -> timestamp_order desc b a.
Proof.
  unfold precedes, timestamp_order. destruct desc; rewrite Z.leb_gt; lia.
Qed.

Lemma timestamp_order_trans desc a b c :
  timestamp_order desc a b -> timestamp_order desc b c ->
  timestamp_order desc a c.
Proof.
  unfold timestamp_order. destruct desc; lia.
Qed.

Lemma place_Permutation desc x rows :
  Permutation (place desc x rows) (x :: rows).
Proof.
  induction rows as [|y rows IH]; simpl.
  - apply Permutation_refl.
  - destruct (precedes desc x y).
    + apply Permutation_refl.
    + apply Permutation_trans with (y :: x :: rows).
      * now apply perm_skip.
      * apply perm_swap.
Qed.

Lemma place_sorted desc x rows :
  StronglySorted (timestamp_order desc) rows ->
  StronglySorted (timestamp_order desc) (place desc x rows).
Proof.
  induction 1 as [|y rows Hs IH Hy]; simpl.
  - repeat constructor.
  - destruct (precedes desc x y) eqn:E.
    + apply precedes_order in E. constructor.
      * now constructor.
      * constructor; [assumption|].
        apply Forall_impl with (P := timestamp_order desc y);
          [|assumption].
        intros z Hz. now apply timestamp_order_trans with y.
    + apply precedes_total in E. constructor; [assumption|].
      apply Forall_forall. intros z Hz.
      apply (Permutation_in _ (place_Permutation desc x rows)) in Hz.
      destruct Hz as [<-|Hz]; [assumption|].
      now apply (proj1 (Forall_forall _ _) Hy).
Qed.

Lemma order_by_Permutation desc rows :
  Permutation (order_by desc rows) rows.
Proof.
  unfold order_by. induction rows as [|x rows IH]; simpl.
  - apply perm_nil.
  - apply Permutation_trans with (x :: fold_right (place desc) [] rows).
    + apply place_Permutation.
    + now apply perm_skip.
Qed.

Lemma order_by_sorted desc rows :
  StronglySorted (timestamp_order desc) (order_by desc rows).
Proof.
  unfold order_by. induction rows as [|x rows IH]; simpl.
  - constructor.
  - now apply place_sorted.
Qed.

Lemma Community_matches_run like self search page limit desc s :
  faults s (statements s) = None ->
  fst (Community_matches like self search page limit desc s)
  = Returned
      (yielded self
         (limit_offset limit (page_offset page limit)
            (order_by desc
               (match search with
                | Some term =>
                    if truthy term
                    then select_matches_search like
                           (community_name self) term (db s)
                    else select_matches (community_name self) (db s)
                | None => select_matches (community_name self) (db s)
                end)))).
Proof.
  intros H. unfold Community_matches, bind.
  rewrite fetch_answered by exact H. unfold ret, yielded. simpl.
  destruct search as [term|]; [destruct (truthy term)|]; reflexivity.
Qed.

Lemma page_window page limit (rows : list MatchModel) :
  limit_offset limit (page_offset page limit) rows
  = firstn (Z.to_nat limit)
      (skipn (if 1 <? page then Z.to_nat ((page - 1) * limit) else 0%nat)
         rows).
Proof.
  unfold limit_offset, page_offset. now destruct (1 <? page).
Qed.

Lemma place_rows {A} (f : A -> MatchModel) desc (x : A) (rows : list A) :
  exists placed,
    Permutation placed (x :: rows)
    /\ place desc (f x) (map f rows) = map f placed.
Proof.
  induction rows as [|y rows [placed [Hperm Heq]]]; simpl.
  - exists [x]. split; [apply Permutation_refl|reflexivity].
  - destruct (precedes desc (f x) (f y)).
    + exists (x :: y :: rows). split; [apply Permutation_refl|reflexivity].
    + exists (y :: placed). split.
      * apply Permutation_trans with (y :: x :: rows);
          [now apply perm_skip|apply perm_swap].
      * simpl. now rewrite Heq.
Qed.

Lemma order_by_rows {A} (f : A -> MatchModel) desc (rows : list A) :
  exists ordered,
    Permutation ordered rows
    /\ order_by desc (map f rows) = map f ordered.
Proof.
  unfold order_by. induction rows as [|x rows [ordered [Hperm Heq]]]; simpl.
  - exists []. split; [apply perm_nil|reflexivity].
  - rewrite Heq. destruct (place_rows f desc x ordered) as [placed [Hp He]].
    exists placed. split; [|exact He].
    apply Permutation_trans with (x :: ordered);
      [assumption|now apply perm_skip].
Qed.

Lemma StronglySorted_of_map {A B} (R : B -> B -> Prop) (f : A -> B) l :
  StronglySorted R (map f l) ->
  StronglySorted (fun a b => R (f a) (f b)) l.
Proof.
  induction l as [|a l IH]; simpl; intros Hs; [constructor|].
  apply StronglySorted_inv in Hs. destruct Hs as [Hs Ha].
  constructor; [now apply IH|].
  apply Forall_forall. intros b Hb.
  apply (proj1 (Forall_forall _ _) Ha). now apply in_map.
Qed.

Lemma yielded_columns self (rows : list scoreboard_total_row) n k :
  yielded self (firstn n (skipn k (map select_columns rows)))
  = map (fun t => (select_columns t,
                   Community_match self (mm_match_id (select_columns t))))
      (firstn n (skipn k rows)).
Proof.
  unfold yielded. now rewrite skipn_map, firstn_map, map_map.
Qed.

(** C8.  Without a search term [Community.matches] yields the totals rows
    of this community and no others, each as its eleven columns with the
    handle of the match, ordered by the timestamp of the rows, descending
    when [desc] is set and ascending otherwise, cut to the page: at most
    [limit] rows after [(page - 1) * limit] rows when [page > 1] and after
    none otherwise.  Over twelve matches, page 1 of limit 5 is the five
    newest, newest first. *)
Theorem Community_matches_listing
    (like : string -> string -> bool) (self : Community) (page limit : Z)
    (desc : bool) (s : Session) :
  faults s (statements s) = None ->
  0 <= limit ->
  let mine :=
    filter (fun t => (t_community_name t =? community_name self)%string)
      (scoreboard_total_table (db s)) in
  let before := fun a b : scoreboard_total_row =>
    if desc then t_timestamp b <= t_timestamp a
    else t_timestamp a <= t_timestamp b in
  let summary := fun t : scoreboard_total_row =>
    (mk_MatchModel (t_match_id t) (t_timestamp t) (t_status t)
       (t_demo_status t) (t_map t) (t_team_1_name t) (t_team_2_name t)
       (t_team_1_score t) (t_team_2_score t) (t_team_1_side t)
       (t_team_2_side t),
     Match_init (t_match_id t) (community_name self)) in
  (exists ordered,
     Permutation ordered mine
     /\ StronglySorted before ordered
     /\ fst (Community_matches like self None page limit desc s)
        = Returned
            (map summary
               (firstn (Z.to_nat limit)
                  (skipn (if 1 <? page
                          then Z.to_nat ((page - 1) * limit)
                          else 0%nat)
                     ordered)))
     /\ Nat.le
          (List.length
             (firstn (Z.to_nat limit)
                (skipn (if 1 <? page
                        then Z.to_nat ((page - 1) * limit)
                        else 0%nat)
                   ordered)))
          (Z.to_nat limit))
  /\ (List.length mine = 12%nat ->
      exists newest older,
        List.length newest = 5%nat
        /\ Permutation (newest ++ older) mine
        /\ StronglySorted (fun a b => t_timestamp b <= t_timestamp a)
             (newest ++ older)
        /\ fst (Community_matches like self None 1 5 true s)
           = Returned (map summary newest)).
Proof.
  intros Hq Hlimit mine before summary. split.
  - destruct (order_by_rows select_columns desc mine)
      as [ordered [Hperm Heq]].
    exists ordered. split; [exact Hperm|]. split; [|split].
    + pose proof (order_by_sorted desc (map select_columns mine)) as Hs.
      rewrite Heq in Hs. exact (StronglySorted_of_map _ _ _ Hs).
    + rewrite Community_matches_run by exact Hq. rewrite page_window.
      unfold select_matches. fold mine. rewrite Heq.
      now rewrite yielded_columns.
    + apply firstn_le_length.
  - intros Htwelve.
    destruct (order_by_rows select_columns true mine)
      as [ordered [Hperm Heq]].
    exists (firstn 5 ordered), (skipn 5 ordered).
    rewrite firstn_skipn. split; [|split; [|split]].
    + now rewrite length_firstn, (Permutation_length Hperm), Htwelve.
    + exact Hperm.
    + pose proof (order_by_sorted true (map select_columns mine)) as Hs.
      rewrite Heq in Hs. exact (StronglySorted_of_map _ _ _ Hs).
    + rewrite Community_matches_run by exact Hq. rewrite page_window.
      unfold select_matches. fold mine. rewrite Heq.
      now rewrite yielded_columns.
Qed.

(** ** The reference [LIKE] and containment

    Facts of the reference operator [sql_like] only, on the text it is
    meant for; the properties of [Community.matches] hold for whatever
    operator the engine has. *)

Section Like.

Variable collate : ascii -> ascii.

Lemma sql_like_any_run rest text :
  sql_like collate (String "%" rest) text = true
  <-> exists before after,
        text = (before ++ after)%string
        /\ sql_like collate rest after = true.
Proof.
  induction text as [|a text IH].
  - simpl. rewrite orb_false_r. split.
    + intros H. now exists EmptyString, EmptyString.
    + intros [before [after [E H]]].
      destruct before; simpl in E; [now subst after|discriminate].
  - change (sql_like collate (String "%" rest) (String a text))
      with (sql_like collate rest (String a text)
            || sql_like collate (String "%" rest) text).
    rewrite orb_true_iff, IH. split.
    + intros [H|[before [after [E H]]]].
      * now exists EmptyString, (String a text).
      * exists (String a before), after. simpl. now rewrite E.
    + intros [before [after [E H]]]. destruct before as [|b before].
      * left. simpl in E. now rewrite E.
      * right. simpl in E. inversion E; subst. now exists before, after.
Qed.

Lemma sql_like_prefix term text :
  plain_text term = true ->
  sql_like collate (term ++ "%") text = true
  <-> exists occurrence after,
        text = (occurrence ++ after)%string
        /\ collated collate occurrence = collated collate term.
Proof.
  revert text. induction term as [|c term IH]; intros text Hplain.
  - simpl (_ ++ _)%string. rewrite sql_like_any_run. split.
    + intros _. now exists EmptyString, text.
    + intros _. exists text, EmptyString. split.
      * clear. induction text; simpl; congruence.
      * reflexivity.
  - simpl in Hplain. apply andb_true_iff in Hplain.
    destruct Hplain as [Hc Hplain]. apply andb_true_iff in Hc.
    destruct Hc as [Hc1 Hc2]. apply negb_true_iff in Hc1, Hc2.
    simpl. rewrite Hc1, Hc2. destruct text as [|a text].
    + split; [discriminate|].
      intros [occ [after [E H]]]. destruct occ; simpl in *; discriminate.
    + rewrite andb_true_iff, Ascii.eqb_eq, (IH text Hplain). split.
      * intros [Ha [occ [after [E H]]]].
        exists (String a occ), after. simpl. split; congruence.
      * intros [occ [after [E H]]]. destruct occ as [|b occ];
          simpl in *; [discriminate|].
        inversion E; subst. inversion H. split; [congruence|].
        now exists occ, after.
Qed.

Lemma sql_like_contains term text :
  plain_text term = true ->
  sql_like collate (like_search term) text = true
  <-> contains_text collate term text.
Proof.
  intros Hplain. unfold like_search, contains_text.
  change ("%" ++ term ++ "%")%string
    with (String "%" (term ++ "%")%string).
  rewrite sql_like_any_run. split.
  - intros [before [rest [E H]]].
    apply (sql_like_prefix term rest Hplain) in H.
    destruct H as [occ [after [E' H]]].
    exists before, occ, after. split; congruence.
  - intros [before [occ [after [E H]]]].
    exists before, (occ ++ after)%string. split; [assumption|].
    apply (sql_like_prefix term _ Hplain). now exists occ, after.
Qed.

End Like.

(** ** [Community.matches]: the search branch *)




Lemma truthy_nonempty term : term <> EmptyString -> truthy term = true.
Proof.
  destruct term; [congruence|reflexivity].
Qed.




(** The scoping test of the search branch reads the column [name]; a
    totals row as [create_match] writes it does not pass, whatever the
    term. *)
Lemma search_scope_misses_created_match :
  fst (Community_matches (sql_like binary) (Community_init "alpha") (Some "m1")
         1 5 true (session_of created_match_db))
  = Returned []
  /\ fst (Community_matches (sql_like binary) (Community_init "alpha") None
            1 5 true (session_of created_match_db))
     = Returned [(m1_columns, Match_init "m1" "alpha")].
Proof.
  split; vm_compute; reflexivity.
Qed.

(** C10.  The empty string as search term takes the branch without a
    term: the run is the run of [matches] called with no term at all. *)
Theorem Community_matches_empty_search
    (like : string -> string -> bool) (self : Community) (page limit : Z)
    (desc : bool) (s : Session) :
  Community_matches like self (Some EmptyString) page limit desc s
  = Community_matches like self None page limit desc s.
Proof.
  reflexivity.
Qed.

(** ** [VersionAPI.get] *)

Lemma VersionAPI_get_cache_hit version s :
  py_truthy (cached_value version s) = true ->
  VersionAPI_get version s
  = (Returned (response (cached_value version s)), s).
Proof.
  intros H. unfold VersionAPI_get, bind, VersionCache_get.
  now rewrite H.
Qed.

Lemma VersionAPI_get_cache_miss version s :
  py_truthy (cached_value version s) = false ->
  VersionAPI_get version s = (Raised AttributeError, s).
Proof.
  intros H. unfold VersionAPI_get, bind, VersionCache_get.
  now rewrite H.
Qed.

Lemma version_reply_message version cache_get m s :
  truthy m = true ->
  fst (version_reply version cache_get (Some m) s)
  = Returned (response (PyDict [("message", cache_get)]))
  /\ cache (snd (version_reply version cache_get (Some m) s))
     = (version, PyDict [("message", cache_get)]) :: cache s.
Proof.
  intros H. unfold version_reply. rewrite H. now split.
Qed.

(** C1.  The request [GET /version/1.0] with nothing cached and an update
    message stored for version [1.0]: the message is there for the query
    to find, yet the handler raises [AttributeError] where it builds the
    query; the rest of the handler, given that message, would answer and
    cache a body whose message is the empty result of the cache lookup;
    and the query keeps the rows whose version is at least the reported
    one, so that a client at [2.0] finds no row. *)
Theorem VersionAPI_get_cache_miss_at_1_0 :
  select_update_message "1.0" update_db = Some "Update available"
  /\ fst (VersionAPI_get "1.0" (session_of update_db))
     = Raised AttributeError
  /\ fst (version_reply "1.0" PyNone (Some "Update available")
            (session_of update_db))
     = Returned (response (PyDict [("message", PyNone)]))
  /\ select_update_message "2.0" update_db = None.
Proof.
  repeat split; vm_compute; reflexivity.
Qed.

(** ** The theorems at sample sessions *)

Lemma alpha_db_unique_keys : unique_keys alpha_db.
Proof.
  unfold unique_keys. simpl. constructor; [intros []|constructor].
Qed.

Lemma alpha_db_one_enabled_per_owner : one_enabled_per_owner alpha_db.
Proof.
  intros c1 c2 [<-|[]] [<-|[]] _ _ _. reflexivity.
Qed.

Lemma Community_get_joined_row_witness :
  exists m,
    fst (Community_get (Community_init "alpha")
           (session_of alpha_disabled_db)) = Returned m
    /\ cm_disabled m = true.
Proof.
  apply (proj1 (proj2 (Community_get_joined_row (Community_init "alpha")
                         (session_of alpha_disabled_db) eq_refl))).
  - exists (mk_community "alpha" "S1" true true 0),
      (mk_api_key "K0" "S1" 0 "alpha" true).
    unfold master_join. simpl. tauto.
  - intros c [<-|[]] _. reflexivity.
Defined.


Lemma Community_disable_lookups_witness :
  let s' := snd (Community_disable (Community_init "alpha")
                   (session_of alpha_db)) in
  fst (api_key_to_community "K0" s') = Raised InvalidAPIKey
  /\ fst (get_community_from_owner "S1" s') = Raised NoOwnership
  /\ fst (Community_exists (Community_init "alpha") s') = Returned true
  /\ fst (Community_get (Community_init "alpha") s')
     = Returned (mk_CommunityModel "K0" "S1" true "alpha").
Proof.
  intros s'.
  destruct (proj2 (Community_disable_lookups (Community_init "alpha")
                     (session_of alpha_db)
                     (mk_community "alpha" "S1" false true 0)
                     eq_refl alpha_db_unique_keys
                     alpha_db_one_enabled_per_owner
                     (or_introl eq_refl) eq_refl eq_refl)
              s' eq_refl eq_refl)
    as [Hkey [Howner [Hexists Hget]]].
  split; [|split; [|split]].
  - exact (Hkey (mk_api_key "K0" "S1" 0 "alpha" true) (or_introl eq_refl)
             eq_refl).
  - exact Howner.
  - exact Hexists.
  - exact (Hget (mk_CommunityModel "K0" "S1" false "alpha") eq_refl).
Defined.

Lemma Community_matches_listing_witness :
  exists newest older,
    List.length newest = 5%nat
    /\ Permutation (newest ++ older)
         (filter (fun t => (t_community_name t =? "alpha")%string)
            (scoreboard_total_table twelve_db))
    /\ StronglySorted (fun a b => t_timestamp b <= t_timestamp a)
         (newest ++ older)
    /\ fst (Community_matches (sql_like binary) (Community_init "alpha")
              None 1 5 true (session_of twelve_db))
       = Returned
           (map (fun t =>
                   (mk_MatchModel (t_match_id t) (t_timestamp t)
                      (t_status t) (t_demo_status t) (t_map t)
                      (t_team_1_name t) (t_team_2_name t)
                      (t_team_1_score t) (t_team_2_score t)
                      (t_team_1_side t) (t_team_2_side t),
                    Match_init (t_match_id t) "alpha"))
              newest).
Proof.
  assert (Hlimit : 0 <= 5) by lia.
  apply (proj2 (Community_matches_listing (sql_like binary)
                  (Community_init "alpha") 1 5 true (session_of twelve_db)
                  eq_refl Hlimit)).
  reflexivity.
Defined.

(** The page that this session yields: the matches of the times 12 down
    to 8. *)
Lemma Community_matches_twelve :
  map (fun y => mm_timestamp (fst y))
    match fst (Community_matches (sql_like binary) (Community_init "alpha")
                 None 1 5 true (session_of twelve_db)) with
    | Returned page => page
    | Raised _ => []
    end
  = [12; 11; 10; 9; 8].
Proof.
  vm_compute. reflexivity.
Qed.



(** * Further properties *)

(** ** What [create_community] leaves behind *)

Lemma name_taken_decided d name : name_taken d name \/ ~ name_taken d name.
Proof.
  destruct (existsb (fun c => (c_community_name c =? name)%string)
              (community_table d)) eqn:E.
  - left. apply existsb_exists in E. destruct E as [c [Hc Hn]].
    exists c. now rewrite String.eqb_eq in Hn.
  - right. intros [c [Hc Hn]].
    assert (H : existsb (fun c => (c_community_name c =? name)%string)
                  (community_table d) = true).
    { apply existsb_exists. exists c. now rewrite String.eqb_eq. }
    congruence.
Qed.

Lemma create_community_created steam_id name disabled demos s :
  quiet s ->
  ~ owns_enabled (db s) steam_id ->
  ~ name_taken (db s) name ->
  fst (create_community steam_id name disabled demos s)
  = Returned (mk_CommunityModel (entropy s (draws s)) steam_id disabled name,
              Community_init name)
  /\ db (snd (create_community steam_id name disabled demos s))
     = created_db (db s) steam_id name disabled demos (clock s (ticks s))
         (entropy s (draws s)) (clock s (S (ticks s))).
Proof.
  intros Hq Hno Hfree. unfold create_community, bind.
  rewrite owner_exists_run by apply Hq.
  pose proof (owner_exists_true steam_id (db s)) as Hown.
  destruct (0 <? List.length (owned_enabled steam_id (db s)))%nat;
    [exfalso; apply Hno; now apply Hown|].
  unfold datetime_now, try_except_Exception, token_urlsafe.
  rewrite statement_answered by apply Hq.
  cbn [db next_statement with_db ticks clock].
  rewrite insert_community_free by exact Hfree. cbn [fst snd].
  rewrite statement_answered by apply Hq. now split.
Qed.

Lemma create_community_refused steam_id name disabled demos s :
  faults s (statements s) = None ->
  owns_enabled (db s) steam_id ->
  fst (create_community steam_id name disabled demos s)
  = Raised AlreadyCommunity
  /\ db (snd (create_community steam_id name disabled demos s)) = db s.
Proof.
  intros Hq Ho. unfold create_community, bind.
  rewrite owner_exists_run by exact Hq.
  apply owner_exists_true in Ho. rewrite Ho. now split.
Qed.

Lemma create_community_name_taken steam_id name disabled demos s :
  faults s (statements s) = None ->
  faults s (S (statements s)) = None ->
  ~ owns_enabled (db s) steam_id ->
  name_taken (db s) name ->
  fst (create_community steam_id name disabled demos s)
  = Raised CommunityTaken
  /\ db (snd (create_community steam_id name disabled demos s)) = db s.
Proof.
  intros Hq0 Hq1 Hno Htaken. unfold create_community, bind.
  rewrite owner_exists_run by exact Hq0.
  pose proof (owner_exists_true steam_id (db s)) as Hown.
  destruct (0 <? List.length (owned_enabled steam_id (db s)))%nat;
    [exfalso; apply Hno; now apply Hown|].
  unfold datetime_now, try_except_Exception.
  rewrite statement_answered by exact Hq1.
  cbn [db next_statement with_db ticks clock].
  rewrite insert_community_taken by exact Htaken. now split.
Qed.

(** Whatever the persistence layer does, the database after
    [create_community] is the one before, or the one before with the
    community row, or with the community row and the key row; a row is
    only ever added for an identity without enabled community and under a
    name that was free. *)
Lemma create_community_db steam_id name disabled demos s :
  db (snd (create_community steam_id name disabled demos s)) = db s
  \/ (~ owns_enabled (db s) steam_id /\ ~ name_taken (db s) name
      /\ (db (snd (create_community steam_id name disabled demos s))
          = half_created_db (db s) steam_id name disabled demos
              (clock s (ticks s))
          \/ db (snd (create_community steam_id name disabled demos s))
             = created_db (db s) steam_id name disabled demos
                 (clock s (ticks s)) (entropy s (draws s))
                 (clock s (S (ticks s))))).
Proof.
  unfold create_community, bind.
  destruct (faults s (statements s)) as [e0|] eqn:F0.
  - left. unfold owner_exists, bind, fetch.
    now rewrite (statement_failed _ _ e0 F0).
  - rewrite owner_exists_run by exact F0.
    pose proof (owner_exists_true steam_id (db s)) as Hown.
    destruct (0 <? List.length (owned_enabled steam_id (db s)))%nat;
      [now left|].
    assert (Hno : ~ owns_enabled (db s) steam_id)
      by (intros Ho; apply Hown in Ho; discriminate).
    unfold datetime_now, try_except_Exception, token_urlsafe.
    destruct (faults s (S (statements s))) as [e1|] eqn:F1.
    + left. rewrite (statement_failed _ _ e1) by exact F1.
      now destruct (isinstance_Exception e1).
    + rewrite statement_answered by exact F1.
      cbn [db next_statement with_db ticks clock].
      destruct (name_taken_decided (db s) name) as [Htaken|Hfree].
      * left. now rewrite insert_community_taken by exact Htaken.
      * right. split; [assumption|]. split; [assumption|].
        rewrite insert_community_free by exact Hfree. cbn [fst snd].
        destruct (faults s (S (S (statements s)))) as [e2|] eqn:F2.
        -- left. now rewrite (statement_failed _ _ e2) by exact F2.
        -- right. now rewrite statement_answered by exact F2.
Qed.

Lemma NoDup_map_snoc {A B} (f : A -> B) (l : list A) (x : A) :
  NoDup (map f l) -> ~ In (f x) (map f l) -> NoDup (map f (l ++ [x])).
Proof.
  intros Hnd Hx. rewrite map_app. apply NoDup_app.
  - assumption.
  - simpl. constructor; [intros []|constructor].
  - intros a Ha [<-|[]]. contradiction.
Qed.

Lemma name_taken_names d name :
  name_taken d name <-> In name (map c_community_name (community_table d)).
Proof.
  unfold name_taken. rewrite in_map_iff. split; intros [c H]; exists c; tauto.
Qed.

Lemma one_enabled_with_new_row d c :
  one_enabled_per_owner d ->
  ~ owns_enabled d (c_owner_id c) ->
  forall c1 c2,
    In c1 (community_table d ++ [c]) -> In c2 (community_table d ++ [c]) ->
    c_owner_id c1 = c_owner_id c2 ->
    c_disabled c1 = false -> c_disabled c2 = false ->
    c_community_name c1 = c_community_name c2.
Proof.
  intros Hone Hno c1 c2 H1 H2 Ho He1 He2.
  apply in_app_iff in H1. apply in_app_iff in H2. simpl in H1, H2.
  destruct H1 as [H1|[<-|[]]], H2 as [H2|[<-|[]]].
  - now apply Hone.
  - exfalso. apply Hno. exists c1. tauto.
  - exfalso. apply Hno. exists c2. split; [assumption|]. split; congruence.
  - reflexivity.
Qed.

(** X1.  [create_community] keeps the data model whole, whatever the
    persistence layer does to its statements: community names stay
    unique, an owner keeps at most one enabled community, every key row
    still belongs to a community, and key strings stay unique when the
    token drawn is no stored key. *)
Theorem create_community_keeps_invariants
    (steam_id name : string) (disabled demos : bool) (s : Session) :
  unique_names (db s) ->
  one_enabled_per_owner (db s) ->
  let d' := db (snd (create_community steam_id name disabled demos s)) in
  unique_names d'
  /\ one_enabled_per_owner d'
  /\ (keys_reference_communities (db s) -> keys_reference_communities d')
  /\ (unique_keys (db s) -> fresh_token s -> unique_keys d').
Proof.
  intros Hnames Hone d'. subst d'.
  destruct (create_community_db steam_id name disabled demos s)
    as [->|[Hno [Hfree [->| ->]]]].
  - tauto.
  - unfold unique_names, one_enabled_per_owner, keys_reference_communities,
      unique_keys, half_created_db. cbn [community_table api_key_table].
    split; [|split; [|split]].
    + apply NoDup_map_snoc; [assumption|].
      intros H. now apply Hfree, name_taken_names.
    + now apply one_enabled_with_new_row.
    + intros Href k Hk. destruct (Href k Hk) as [c [Hc Hn]].
      exists c. split; [|assumption]. apply in_app_iff. now left.
    + tauto.
  - unfold unique_names, one_enabled_per_owner, keys_reference_communities,
      unique_keys, created_db. cbn [community_table api_key_table].
    split; [|split; [|split]].
    + apply NoDup_map_snoc; [assumption|].
      intros H. now apply Hfree, name_taken_names.
    + now apply one_enabled_with_new_row.
    + intros Href k Hk. apply in_app_iff in Hk. simpl in Hk.
      destruct Hk as [Hk|[<-|[]]].
      * destruct (Href k Hk) as [c [Hc Hn]].
        exists c. split; [|assumption]. apply in_app_iff. now left.
      * eexists. split; [apply in_app_iff; right; now left|reflexivity].
    + intros Hkeys Hfresh. now apply NoDup_map_snoc.
Qed.

Lemma create_community_keeps_invariants_witness :
  unique_names
    (db (snd (create_community "S2" "beta" false true
                (session_of alpha_db))))
  /\ one_enabled_per_owner
       (db (snd (create_community "S2" "beta" false true
                   (session_of alpha_db))))
  /\ (keys_reference_communities alpha_db ->
      keys_reference_communities
        (db (snd (create_community "S2" "beta" false true
                    (session_of alpha_db)))))
  /\ (unique_keys alpha_db -> fresh_token (session_of alpha_db) ->
      unique_keys
        (db (snd (create_community "S2" "beta" false true
                    (session_of alpha_db))))).
Proof.
  apply (create_community_keeps_invariants "S2" "beta" false true
           (session_of alpha_db)).
  - unfold unique_names. simpl. constructor; [intros []|constructor].
  - exact alpha_db_one_enabled_per_owner.
Defined.

(** ** [create_community] and the lookups that follow it *)

Lemma created_db_community_rows d steam_id name disabled demos now key now'
    c :
  ~ name_taken d name ->
  In c (community_table
          (created_db d steam_id name disabled demos now key now')) ->
  c_community_name c = name ->
  c = mk_community name steam_id disabled demos now.
Proof.
  intros Hfree Hc Hn. cbn [community_table created_db] in Hc.
  apply in_app_iff in Hc. simpl in Hc. destruct Hc as [Hc|[<-|[]]].
  - exfalso. apply Hfree. now exists c.
  - reflexivity.
Qed.

(** X2.  What [create_community] returns is what [Community.get] returns
    afterwards: the summary of the new community with its master key.
    Every key row belongs to a community, so that none is left over under
    the new name. *)
Theorem create_community_then_get
    (steam_id name : string) (disabled demos : bool) (s : Session) :
  quiet s ->
  ~ owns_enabled (db s) steam_id ->
  ~ name_taken (db s) name ->
  keys_reference_communities (db s) ->
  exists m h,
    fst (create_community steam_id name disabled demos s) = Returned (m, h)
    /\ forall s',
         db s' = db (snd (create_community steam_id name disabled demos s)) ->
         faults s' (statements s') = None ->
         fst (Community_get h s') = Returned m.
Proof.
  intros Hq Hno Hfree Href.
  destruct (create_community_created steam_id name disabled demos s
              Hq Hno Hfree) as [Hr Hd].
  eexists. eexists. split; [exact Hr|].
  intros s' Hdb Hq'. rewrite Community_get_run by exact Hq'.
  rewrite Hdb, Hd. cbn [community_name].
  set (d1 := created_db _ _ _ _ _ _ _ _).
  assert (Hin : In (mk_community name steam_id disabled demos
                      (clock s (ticks s)),
                    mk_api_key (entropy s (draws s)) steam_id
                      (clock s (S (ticks s))) name true)
                  (select_community name d1)).
  { apply select_community_In. unfold master_join, d1.
    cbn [community_table api_key_table created_db].
    rewrite !in_app_iff. simpl. tauto. }
  destruct (fetch_one (select_community name d1)) as [[c k]|] eqn:E.
  - apply fetch_one_Some, select_community_In in E.
    destruct E as [Hc [Hk [Hcn [Hkn Hm]]]].
    apply (created_db_community_rows _ _ _ _ _ _ _ _ _ Hfree) in Hc;
      [|assumption].
    unfold d1 in Hk. cbn [api_key_table created_db] in Hk.
    apply in_app_iff in Hk. simpl in Hk. destruct Hk as [Hk|[<-|[]]].
    + exfalso. apply Hfree. rewrite <- Hkn. now apply Href.
    + subst c. reflexivity.
  - exfalso. exact (proj1 (fetch_one_None _) E _ Hin).
Qed.

Lemma create_community_then_get_witness :
  exists m h,
    fst (create_community "S2" "beta" false true (session_of alpha_db))
    = Returned (m, h)
    /\ forall s',
         db s' = db (snd (create_community "S2" "beta" false true
                            (session_of alpha_db))) ->
         faults s' (statements s') = None ->
         fst (Community_get h s') = Returned m.
Proof.
  apply (create_community_then_get "S2" "beta" false true
           (session_of alpha_db) (fun n => eq_refl)).
  - intros [c [[<-|[]] [Ho _]]]. discriminate.
  - intros [c [[<-|[]] Hn]]. discriminate.
  - intros k [<-|[]]. exists (mk_community "alpha" "S1" false true 0).
    simpl. tauto.
Defined.

(** X3.  The key that [create_community] returns resolves, through
    [api_key_to_community], to the new community as its master key when
    the community was created enabled, and is refused with
    [InvalidAPIKey] when it was created disabled.  The token drawn is no
    stored key. *)
Theorem create_community_then_resolve
    (steam_id name : string) (disabled demos : bool) (s : Session) :
  quiet s ->
  ~ owns_enabled (db s) steam_id ->
  ~ name_taken (db s) name ->
  fresh_token s ->
  exists m h,
    fst (create_community steam_id name disabled demos s) = Returned (m, h)
    /\ forall s',
         db s' = db (snd (create_community steam_id name disabled demos s)) ->
         faults s' (statements s') = None ->
         fst (api_key_to_community (cm_api_key m) s')
         = if disabled then Raised InvalidAPIKey else Returned (h, true).
Proof.
  intros Hq Hno Hfree Hfresh.
  destruct (create_community_created steam_id name disabled demos s
              Hq Hno Hfree) as [Hr Hd].
  eexists. eexists. split; [exact Hr|].
  intros s' Hdb Hq'. rewrite api_key_to_community_run by exact Hq'.
  rewrite Hdb, Hd. cbn [cm_api_key].
  set (key := entropy s (draws s)) in *.
  set (d1 := created_db _ _ _ _ _ _ _ _).
  assert (Hrows : forall c k, In (c, k) (select_api_key key d1) ->
            c = mk_community name steam_id disabled demos (clock s (ticks s))
            /\ k = mk_api_key key steam_id (clock s (S (ticks s))) name true).
  { intros c k Hin. apply select_api_key_In in Hin.
    destruct Hin as [Hc [Hk [Hck [Hkey _]]]].
    unfold d1 in Hk. cbn [api_key_table created_db] in Hk.
    apply in_app_iff in Hk. simpl in Hk. destruct Hk as [Hk|[<-|[]]].
    - exfalso. apply Hfresh. fold key. rewrite <- Hkey. now apply in_map.
    - split; [|reflexivity].
      now apply (created_db_community_rows _ _ _ _ _ _ _ _ _ Hfree) in Hc. }
  destruct disabled.
  - destruct (fetch_one _) as [[c k]|] eqn:E; [|reflexivity].
    exfalso. apply fetch_one_Some in E. pose proof (Hrows c k E) as [Hc _].
    apply select_api_key_In in E. destruct E as [_ [_ [_ [_ He]]]].
    subst c. discriminate.
  - destruct (fetch_one _) as [[c k]|] eqn:E.
    + apply fetch_one_Some, Hrows in E. destruct E as [-> ->]. reflexivity.
    + exfalso.
      apply (proj1 (fetch_one_None _) E
               (mk_community name steam_id false demos (clock s (ticks s)),
                mk_api_key key steam_id (clock s (S (ticks s))) name true)).
      apply select_api_key_In. unfold d1.
      cbn [community_table api_key_table created_db].
      rewrite !in_app_iff. simpl. tauto.
Qed.

Lemma create_community_then_resolve_witness :
  exists m h,
    fst (create_community "S2" "beta" false true (session_of alpha_db))
    = Returned (m, h)
    /\ forall s',
         db s' = db (snd (create_community "S2" "beta" false true
                            (session_of alpha_db))) ->
         faults s' (statements s') = None ->
         fst (api_key_to_community (cm_api_key m) s') = Returned (h, true).
Proof.
  apply (create_community_then_resolve "S2" "beta" false true
           (session_of alpha_db) (fun n => eq_refl)).
  - intros [c [[<-|[]] [Ho _]]]. discriminate.
  - intros [c [[<-|[]] Hn]]. discriminate.
  - unfold fresh_token. simpl. intros [H|[]]. discriminate.
Defined.

Lemma owned_enabled_created d steam_id name demos now key now' :
  ~ owns_enabled d steam_id ->
  owned_enabled steam_id
    (created_db d steam_id name false demos now key now')
  = [mk_community name steam_id false demos now].
Proof.
  intros Hno. apply owned_enabled_empty in Hno.
  unfold owned_enabled in *. cbn [community_table created_db].
  rewrite filter_app, Hno. simpl. now rewrite String.eqb_refl.
Qed.

(** X4.  Once an identity has created an enabled community, every further
    [create_community] of that identity is refused with
    [AlreadyCommunity], whatever the name, and leaves the database alone;
    [owner_exists] answers true; and [get_community_from_owner] returns
    the handle of the community, unless its name is the empty string, in
    which case it raises [NoOwnership]. *)
Theorem create_community_then_owner
    (steam_id name : string) (demos : bool) (s : Session) :
  quiet s ->
  ~ owns_enabled (db s) steam_id ->
  ~ name_taken (db s) name ->
  forall s',
    db s' = db (snd (create_community steam_id name false demos s)) ->
    faults s' (statements s') = None ->
    fst (owner_exists steam_id s') = Returned true
    /\ (forall name' disabled' demos',
          fst (create_community steam_id name' disabled' demos' s')
          = Raised AlreadyCommunity
          /\ db (snd (create_community steam_id name' disabled' demos' s'))
             = db s')
    /\ fst (get_community_from_owner steam_id s')
       = if truthy name then Returned (Community_init name)
         else Raised NoOwnership.
Proof.
  intros Hq Hno Hfree s' Hdb Hq'.
  destruct (create_community_created steam_id name false demos s
              Hq Hno Hfree) as [_ Hd].
  rewrite Hd in Hdb.
  pose proof (owned_enabled_created (db s) steam_id name demos
                (clock s (ticks s)) (entropy s (draws s))
                (clock s (S (ticks s))) Hno) as Howned.
  rewrite <- Hdb in Howned.
  split; [|split].
  - rewrite owner_exists_run by exact Hq'. now rewrite Howned.
  - intros name' disabled' demos'.
    apply create_community_refused; [exact Hq'|].
    apply owner_exists_true. now rewrite Howned.
  - rewrite get_community_from_owner_run by exact Hq'. now rewrite Howned.
Qed.

Lemma create_community_then_owner_witness :
  let s' := snd (create_community "S2" "beta" false true
                   (session_of alpha_db)) in
  fst (owner_exists "S2" s') = Returned true
  /\ fst (create_community "S2" "gamma" false true s')
     = Raised AlreadyCommunity
  /\ fst (get_community_from_owner "S2" s')
     = Returned (Community_init "beta").
Proof.
  intros s'.
  assert (Hno : ~ owns_enabled alpha_db "S2")
    by (intros [c [[<-|[]] [Ho _]]]; discriminate).
  assert (Hfree : ~ name_taken alpha_db "beta")
    by (intros [c [[<-|[]] Hn]]; discriminate).
  destruct (create_community_then_owner "S2" "beta" true
              (session_of alpha_db) (fun n => eq_refl) Hno Hfree
              s' eq_refl eq_refl) as [Hexists [Hagain Howner]].
  split; [exact Hexists|]. split; [|exact Howner].
  exact (proj1 (Hagain "gamma" false true)).
Defined.

(** ** The owner's lookups *)

(** X5.  [owner_exists] answers true exactly for the owner of an enabled
    community.  With at most one enabled community per owner,
    [get_community_from_owner] returns the handle of that community, but
    raises [NoOwnership] when the name of the community is the empty
    string, as it does for an identity without enabled community. *)
Theorem get_community_from_owner_resolves (steam_id : string) (s : Session) :
  faults s (statements s) = None ->
  one_enabled_per_owner (db s) ->
  (fst (owner_exists steam_id s) = Returned true
   <-> owns_enabled (db s) steam_id)
  /\ (forall c, In c (community_table (db s)) ->
                c_owner_id c = steam_id -> c_disabled c = false ->
                fst (get_community_from_owner steam_id s)
                = if truthy (c_community_name c)
                  then Returned (Community_init (c_community_name c))
                  else Raised NoOwnership)
  /\ (~ owns_enabled (db s) steam_id ->
      fst (get_community_from_owner steam_id s) = Raised NoOwnership).
Proof.
  intros Hq Hone. split; [|split].
  - rewrite owner_exists_run by exact Hq. simpl.
    rewrite <- owner_exists_true. split; congruence.
  - intros c Hc Ho He. rewrite get_community_from_owner_run by exact Hq.
    destruct (owned_enabled steam_id (db s)) as [|c' rest] eqn:E.
    + exfalso. apply owned_enabled_empty in E. apply E. now exists c.
    + assert (Hin : In c' (owned_enabled steam_id (db s)))
        by (rewrite E; now left).
      unfold owned_enabled in Hin. apply filter_In in Hin.
      destruct Hin as [Hc' Hp]. apply andb_true_iff in Hp.
      rewrite negb_true_iff, String.eqb_eq in Hp. destruct Hp as [Ho' He'].
      assert (Hn : c_community_name c' = c_community_name c)
        by (apply Hone; congruence).
      simpl. now rewrite Hn.
  - intros Hno. rewrite get_community_from_owner_run by exact Hq.
    apply owned_enabled_empty in Hno. now rewrite Hno.
Qed.

Lemma get_community_from_owner_resolves_witness :
  fst (owner_exists "S1" (session_of nameless_db)) = Returned true
  /\ fst (get_community_from_owner "S1" (session_of nameless_db))
     = Raised NoOwnership
  /\ fst (get_community_from_owner "S1" (session_of alpha_db))
     = Returned (Community_init "alpha").
Proof.
  assert (Hone : one_enabled_per_owner nameless_db)
    by (intros c1 c2 [<-|[]] [<-|[]] _ _ _; reflexivity).
  destruct (get_community_from_owner_resolves "S1" (session_of nameless_db)
              eq_refl Hone) as [Hexists [Hget _]].
  split; [|split].
  - apply Hexists. exists (mk_community "" "S1" false true 0).
    simpl. tauto.
  - exact (Hget (mk_community "" "S1" false true 0) (or_introl eq_refl)
             eq_refl eq_refl).
  - exact (proj1 (proj2 (get_community_from_owner_resolves "S1"
                           (session_of alpha_db) eq_refl
                           alpha_db_one_enabled_per_owner))
             (mk_community "alpha" "S1" false true 0) (or_introl eq_refl)
             eq_refl eq_refl).
Defined.

(** ** [Community.exists] and the creation that would follow *)

Lemma count_community_positive name d :
  (0 <? count_community name d)%nat = true <-> name_taken d name.
Proof.
  unfold count_community, name_taken. split.
  - destruct (filter _ _) as [|c rest] eqn:E; [discriminate|]. intros _.
    assert (Hin : In c (c :: rest)) by now left.
    rewrite <- E in Hin. apply filter_In in Hin.
    rewrite String.eqb_eq in Hin. now exists c.
  - intros [c [Hc Hn]]. apply (filter_inhabited _ _ c); [assumption|].
    now apply String.eqb_eq.
Qed.

(** X6.  [Community.exists] answers true exactly when a community row
    carries the name, enabled or not; and for an identity without enabled
    community that is exactly when [create_community] under that name
    raises [CommunityTaken]. *)
Theorem Community_exists_decides_creation
    (steam_id name : string) (disabled demos : bool) (s : Session) :
  quiet s ->
  ~ owns_enabled (db s) steam_id ->
  (fst (Community_exists (Community_init name) s) = Returned true
   <-> name_taken (db s) name)
  /\ (fst (Community_exists (Community_init name) s) = Returned true
      <-> fst (create_community steam_id name disabled demos s)
          = Raised CommunityTaken).
Proof.
  intros Hq Hno.
  assert (Hexists : fst (Community_exists (Community_init name) s)
                    = Returned true <-> name_taken (db s) name).
  { rewrite Community_exists_run by apply Hq. cbn [community_name].
    rewrite <- count_community_positive. split; congruence. }
  split; [exact Hexists|]. rewrite Hexists. split.
  - intros Htaken.
    now apply create_community_name_taken; try apply Hq.
  - intros Hr. destruct (name_taken_decided (db s) name) as [H|Hfree];
      [assumption|].
    destruct (create_community_created steam_id name disabled demos s
                Hq Hno Hfree) as [Hok _].
    congruence.
Qed.

Lemma Community_exists_decides_creation_witness :
  fst (Community_exists (Community_init "alpha")
         (session_of alpha_disabled_db)) = Returned true
  /\ fst (create_community "S1" "alpha" false true
            (session_of alpha_disabled_db)) = Raised CommunityTaken.
Proof.
  assert (Hno : ~ owns_enabled alpha_disabled_db "S1")
    by (intros [c [[<-|[]] [_ He]]]; discriminate).
  destruct (Community_exists_decides_creation "S1" "alpha" false true
              (session_of alpha_disabled_db) (fun n => eq_refl) Hno)
    as [Hrow Hcreate].
  assert (Hexists : fst (Community_exists (Community_init "alpha")
                           (session_of alpha_disabled_db)) = Returned true).
  { apply Hrow. exists (mk_community "alpha" "S1" true true 0).
    simpl. tauto. }
  split; [exact Hexists|]. now apply Hcreate.
Defined.

(** ** [Community.disable]: what it changes and what it spares *)

Lemma disabled_row_again name c :
  disabled_row name (disabled_row name c) = disabled_row name c.
Proof.
  unfold disabled_row at 2.
  destruct (c_community_name c =? name)%string eqn:E.
  - unfold disabled_row. simpl. now rewrite E.
  - unfold disabled_row. now rewrite E.
Qed.

Lemma disabled_row_other name c :
  c_community_name c <> name -> disabled_row name c = c.
Proof.
  intros Hn. unfold disabled_row. apply String.eqb_neq in Hn. now rewrite Hn.
Qed.

Lemma update_disabled_again name d :
  update_disabled name (update_disabled name d) = update_disabled name d.
Proof.
  unfold update_disabled. cbn [community_table api_key_table
    scoreboard_total_table scoreboard_table user_table update_table].
  f_equal. rewrite map_map. apply map_ext. apply disabled_row_again.
Qed.

Lemma update_disabled_unknown name d :
  ~ name_taken d name -> update_disabled name d = d.
Proof.
  intros Hfree. destruct d as [cs ks ts ps us vs]. unfold update_disabled.
  cbn [community_table api_key_table scoreboard_total_table
         scoreboard_table user_table update_table].
  f_equal. rewrite <- (map_id cs) at 2. apply map_ext_in.
  intros c Hc. apply disabled_row_other. intros Hn. apply Hfree.
  now exists c.
Qed.

(** X7.  [Community.disable] is idempotent, and on a name that no
    community carries it changes nothing and raises nothing. *)
Theorem Community_disable_idempotent (self : Community) (s : Session) :
  faults s (statements s) = None ->
  (forall s',
     db s' = db (snd (Community_disable self s)) ->
     faults s' (statements s') = None ->
     fst (Community_disable self s') = Returned tt
     /\ db (snd (Community_disable self s')) = db s')
  /\ (~ name_taken (db s) (community_name self) ->
      fst (Community_disable self s) = Returned tt
      /\ db (snd (Community_disable self s)) = db s).
Proof.
  intros Hq. rewrite Community_disable_run by exact Hq.
  cbn [fst snd db next_statement with_db]. split.
  - intros s' Hdb Hq'. rewrite Community_disable_run by exact Hq'.
    cbn [fst snd db next_statement with_db]. split; [reflexivity|].
    rewrite Hdb. apply update_disabled_again.
  - intros Hfree. split; [reflexivity|]. now apply update_disabled_unknown.
Qed.

Lemma Community_disable_idempotent_witness :
  (let s' := snd (Community_disable (Community_init "alpha")
                    (session_of alpha_db)) in
   fst (Community_disable (Community_init "alpha") s') = Returned tt
   /\ db (snd (Community_disable (Community_init "alpha") s')) = db s')
  /\ db (snd (Community_disable (Community_init "beta")
                (session_of alpha_db))) = alpha_db.
Proof.
  destruct (Community_disable_idempotent (Community_init "alpha")
              (session_of alpha_db) eq_refl) as [Hagain _].
  destruct (Community_disable_idempotent (Community_init "beta")
              (session_of alpha_db) eq_refl) as [_ Hunknown].
  split.
  - exact (Hagain _ eq_refl eq_refl).
  - apply Hunknown. intros [c [[<-|[]] Hn]]. discriminate.
Defined.

Lemma select_api_key_spared name d key :
  (forall c k, In (c, k) (select_api_key key d) ->
               c_community_name c <> name) ->
  select_api_key key (update_disabled name d) = select_api_key key d.
Proof.
  intros Hother. unfold select_api_key in *. unfold update_disabled.
  cbn [community_table api_key_table]. rewrite join_map_left.
  2:{ intros c k. unfold same_community. now rewrite disabled_row_name. }
  rewrite filter_map_swap.
  match goal with
  | |- map _ (filter ?p ?rows) = filter ?q ?rows =>
      assert (Hsame : filter p rows = filter q rows)
  end.
  { apply filter_ext_in. intros [c k] Hin. cbn [fst snd].
    destruct (k_api_key k =? key)%string eqn:Ek; [|reflexivity].
    destruct (c_disabled c) eqn:Ed.
    - simpl. unfold disabled_row.
      destruct (c_community_name c =? name)%string; simpl; now rewrite ?Ed.
    - rewrite disabled_row_other; [now rewrite Ed|].
      apply (Hother c k). apply filter_In. split; [assumption|].
      cbn [fst snd]. now rewrite Ek, Ed. }
  rewrite Hsame.
  match goal with
  | |- map _ ?l = ?l => rewrite <- (map_id l) at 2
  end.
  apply map_ext_in. intros [c k] Hin. cbn [fst snd].
  now rewrite disabled_row_other by exact (Hother c k Hin).
Qed.

(** X8.  Disabling a community does not touch the keys of the others: a
    key that resolved to another community resolves to it afterwards, with
    the same master flag.  Key strings are unique. *)
Theorem Community_disable_spares_others
    (self : Community) (s : Session) (key name : string) (master : bool) :
  faults s (statements s) = None ->
  unique_keys (db s) ->
  fst (api_key_to_community key s) = Returned (Community_init name, master) ->
  name <> community_name self ->
  forall s',
    db s' = db (snd (Community_disable self s)) ->
    faults s' (statements s') = None ->
    fst (api_key_to_community key s') = Returned (Community_init name, master).
Proof.
  intros Hq Hu Hbefore Hother s' Hdb Hq'.
  rewrite api_key_to_community_run in Hbefore by exact Hq.
  rewrite api_key_to_community_run by exact Hq'.
  rewrite Hdb, Community_disable_run by exact Hq.
  cbn [snd db next_statement with_db].
  rewrite select_api_key_spared; [exact Hbefore|].
  intros c k Hin.
  destruct (fetch_one (select_api_key key (db s))) as [[c0 k0]|] eqn:E;
    [|discriminate].
  inversion Hbefore as [[Hname Hmaster]].
  apply fetch_one_Some, select_api_key_In in E.
  apply select_api_key_In in Hin.
  destruct E as [_ [Hk0 [Hck0 [Hkey0 _]]]].
  destruct Hin as [_ [Hk [Hck [Hkey _]]]].
  assert (k = k0) by (apply (map_key_injective _ _ _ _ Hu); congruence).
  congruence.
Qed.

Lemma two_db_unique_keys : unique_keys two_db.
Proof.
  unfold unique_keys. simpl.
  constructor; [intros [H|[]]; discriminate|].
  constructor; [intros []|constructor].
Qed.

Lemma two_db_one_enabled_per_owner : one_enabled_per_owner two_db.
Proof.
  intros c1 c2 [<-|[<-|[]]] [<-|[<-|[]]] Ho _ _;
    solve [reflexivity | discriminate].
Qed.

Lemma Community_disable_spares_others_witness :
  fst (api_key_to_community "K9"
         (snd (Community_disable (Community_init "alpha")
                 (session_of two_db))))
  = Returned (Community_init "beta", true).
Proof.
  assert (Hother : "beta" <> "alpha") by discriminate.
  exact (Community_disable_spares_others (Community_init "alpha")
           (session_of two_db) "K9" "beta" true eq_refl two_db_unique_keys
           eq_refl Hother _ eq_refl eq_refl).
Defined.

(** X9.  Disabling frees the owner, not the name: once an enabled
    community is disabled its owner may create a community again under a
    name that is free, while [create_community] under the name of the
    disabled community raises [CommunityTaken].  An owner has at most one
    enabled community. *)
Theorem Community_disable_then_create
    (self : Community) (s : Session) (c : community_row) :
  faults s (statements s) = None ->
  one_enabled_per_owner (db s) ->
  In c (community_table (db s)) ->
  c_community_name c = community_name self ->
  c_disabled c = false ->
  forall s',
    db s' = db (snd (Community_disable self s)) ->
    quiet s' ->
    (forall disabled demos,
       fst (create_community (c_owner_id c) (community_name self)
              disabled demos s')
       = Raised CommunityTaken)
    /\ (forall name disabled demos,
          ~ name_taken (db s) name ->
          fst (create_community (c_owner_id c) name disabled demos s')
          = Returned (mk_CommunityModel (entropy s' (draws s'))
                        (c_owner_id c) disabled name,
                      Community_init name)).
Proof.
  intros Hq Hone Hc Hn He s' Hdb Hq'.
  rewrite Community_disable_run in Hdb by exact Hq.
  cbn [snd db next_statement with_db] in Hdb.
  assert (Hnames : forall name, name_taken (db s') name
                                <-> name_taken (db s) name).
  { intros name. rewrite !name_taken_names, Hdb, update_disabled_rows.
    rewrite map_map. erewrite map_ext; [reflexivity|].
    intros c0. apply disabled_row_name. }
  assert (Hno : ~ owns_enabled (db s') (c_owner_id c)).
  { intros [c' [Hc' [Ho' He']]]. rewrite Hdb, update_disabled_rows in Hc'.
    apply in_map_iff in Hc'. destruct Hc' as [c0 [<- Hc0]].
    apply disabled_row_enabled in He'. destruct He' as [Hne [Hsame He0]].
    rewrite Hsame in Ho'. apply Hne. rewrite <- Hn. now apply Hone. }
  split.
  - intros disabled demos.
    apply create_community_name_taken; try apply Hq'; [assumption|].
    apply Hnames. now exists c.
  - intros name disabled demos Hfree.
    apply create_community_created; [assumption|assumption|].
    now rewrite Hnames.
Qed.

Lemma Community_disable_then_create_witness :
  let s' := snd (Community_disable (Community_init "alpha")
                   (session_of alpha_db)) in
  fst (create_community "S1" "alpha" false true s') = Raised CommunityTaken
  /\ fst (create_community "S1" "beta" false true s')
     = Returned (mk_CommunityModel "K1" "S1" false "beta",
                 Community_init "beta").
Proof.
  intros s'.
  destruct (Community_disable_then_create (Community_init "alpha")
              (session_of alpha_db)
              (mk_community "alpha" "S1" false true 0)
              eq_refl alpha_db_one_enabled_per_owner (or_introl eq_refl)
              eq_refl eq_refl s' eq_refl (fun n => eq_refl))
    as [Hold Hnew].
  split; [exact (Hold false true)|].
  apply (Hnew "beta" false true).
  intros [c [[<-|[]] Hn]]. discriminate.
Defined.

(** ** Key rotation: what it changes and what it spares *)

Lemma join_map_right {A B} (on : A -> B -> bool) (g : B -> B) l r :
  (forall a b, on a (g b) = on a b) ->
  join on l (map g r) = map (fun ab => (fst ab, g (snd ab))) (join on l r).
Proof.
  intros Hon. unfold join. induction l as [|a l IH]; simpl; [reflexivity|].
  rewrite map_app, IH, map_map. f_equal.
  rewrite filter_map_swap, map_map.
  now rewrite (filter_ext _ _ (Hon a)).
Qed.

Lemma update_api_key_unmatched chosen key d :
  (forall k, In k (api_key_table d) -> chosen k = false) ->
  update_api_key chosen key d = d.
Proof.
  intros Hnone. destruct d as [cs ks ts ps us vs]. unfold update_api_key.
  cbn [community_table api_key_table scoreboard_total_table
         scoreboard_table user_table update_table] in *.
  f_equal. rewrite <- (map_id ks) at 2. apply map_ext_in.
  intros k Hk. now rewrite Hnone.
Qed.

Lemma select_api_key_fresh key d :
  ~ In key (map k_api_key (api_key_table d)) -> select_api_key key d = [].
Proof.
  intros Hfresh. destruct (select_api_key key d) as [|[c k] rest] eqn:E;
    [reflexivity|].
  exfalso. assert (Hin : In (c, k) (select_api_key key d))
    by (rewrite E; now left).
  apply select_api_key_In in Hin. destruct Hin as [_ [Hk [_ [Hkey _]]]].
  apply Hfresh. rewrite <- Hkey. now apply in_map.
Qed.

(** X10.  [Community.regenerate] with a key that no key row of the
    community carries changes nothing and raises nothing: it returns the
    token drawn, and that token, being no stored key, is refused with
    [InvalidAPIKey] afterwards. *)
Theorem Community_regenerate_unmatched
    (self : Community) (old_key : string) (s : Session) :
  faults s (statements s) = None ->
  (forall k, In k (api_key_table (db s)) ->
             k_community_name k = community_name self ->
             k_api_key k <> old_key) ->
  fst (Community_regenerate self old_key s) = Returned (entropy s (draws s))
  /\ db (snd (Community_regenerate self old_key s)) = db s
  /\ (fresh_token s ->
      forall s',
        db s' = db (snd (Community_regenerate self old_key s)) ->
        faults s' (statements s') = None ->
        fst (api_key_to_community (entropy s (draws s)) s')
        = Raised InvalidAPIKey).
Proof.
  intros Hq Hnone.
  destruct (Community_regenerate_run self old_key s Hq) as [Hr Hd].
  assert (Hsame : db (snd (Community_regenerate self old_key s)) = db s).
  { rewrite Hd. apply update_api_key_unmatched. intros k Hk.
    apply andb_false_iff.
    destruct (k_community_name k =? community_name self)%string eqn:E;
      [right|now left].
    apply String.eqb_eq in E. apply String.eqb_neq. now apply Hnone. }
  split; [exact Hr|]. split; [exact Hsame|].
  intros Hfresh s' Hdb Hq'. rewrite api_key_to_community_run by exact Hq'.
  rewrite Hdb, Hsame. now rewrite select_api_key_fresh.
Qed.

Lemma Community_regenerate_unmatched_witness :
  fst (Community_regenerate (Community_init "alpha") "K9"
         (session_of two_db)) = Returned "K1"
  /\ db (snd (Community_regenerate (Community_init "alpha") "K9"
                (session_of two_db))) = two_db.
Proof.
  destruct (Community_regenerate_unmatched (Community_init "alpha") "K9"
              (session_of two_db) eq_refl) as [Hr [Hd _]].
  - intros k [<-|[<-|[]]] Hn; discriminate.
  - split; [exact Hr|exact Hd].
Defined.

Lemma select_api_key_rotated chosen token key d :
  key <> token ->
  (forall k, In k (api_key_table d) -> chosen k = true ->
             k_api_key k <> key) ->
  select_api_key key (update_api_key chosen token d) = select_api_key key d.
Proof.
  intros Hkey Hother. unfold select_api_key, update_api_key.
  cbn [community_table api_key_table]. rewrite join_map_right.
  2:{ intros c k. unfold same_community.
      now destruct (chosen k). }
  rewrite filter_map_swap.
  match goal with
  | |- map _ (filter ?p ?rows) = filter ?q ?rows =>
      assert (Hsame : filter p rows = filter q rows)
  end.
  { apply filter_ext_in. intros [c k] Hin. cbn [fst snd].
    apply In_join in Hin. destruct Hin as [_ [Hk _]].
    destruct (chosen k) eqn:E; [|reflexivity].
    simpl. apply String.eqb_neq in Hkey. rewrite String.eqb_sym, Hkey.
    pose proof (Hother k Hk E) as Hne. apply String.eqb_neq in Hne.
    now rewrite Hne. }
  rewrite Hsame.
  match goal with
  | |- map _ ?l = ?l => rewrite <- (map_id l) at 2
  end.
  apply map_ext_in. intros [c k] Hin. cbn [fst snd].
  apply filter_In in Hin. destruct Hin as [Hin Hp].
  apply In_join in Hin. destruct Hin as [_ [Hk _]].
  cbn [fst snd] in Hp. apply andb_true_iff in Hp.
  rewrite String.eqb_eq in Hp. destruct Hp as [Hp _].
  destruct (chosen k) eqn:E; [|reflexivity].
  exfalso. exact (Hother k Hk E Hp).
Qed.

(** X11.  A rotation spares the other keys: after [regenerate] every key
    other than the replaced one and the token drawn resolves as it did
    before; after [regenerate_master] so does every key that is not the
    key of a master row of the community. *)
Theorem rotation_spares_other_keys
    (self : Community) (key : string) (s : Session) :
  faults s (statements s) = None ->
  key <> entropy s (draws s) ->
  (forall old_key, key <> old_key ->
     forall s',
       db s' = db (snd (Community_regenerate self old_key s)) ->
       faults s' (statements s') = None ->
       fst (api_key_to_community key s') = fst (api_key_to_community key s))
  /\ ((forall k, In k (api_key_table (db s)) ->
                 k_community_name k = community_name self ->
                 k_master k = true -> k_api_key k <> key) ->
      forall s',
        db s' = db (snd (Community_regenerate_master self s)) ->
        faults s' (statements s') = None ->
        fst (api_key_to_community key s') = fst (api_key_to_community key s)).
Proof.
  intros Hq Htoken. split.
  - intros old_key Hold s' Hdb Hq'.
    destruct (Community_regenerate_run self old_key s Hq) as [_ Hd].
    rewrite !api_key_to_community_run by assumption.
    rewrite Hdb, Hd, select_api_key_rotated; [reflexivity|assumption|].
    intros k Hk Hch. apply andb_true_iff in Hch.
    rewrite !String.eqb_eq in Hch. destruct Hch as [_ Hkk]. congruence.
  - intros Hmaster s' Hdb Hq'.
    destruct (Community_regenerate_master_run self s Hq) as [_ Hd].
    rewrite !api_key_to_community_run by assumption.
    rewrite Hdb, Hd, select_api_key_rotated; [reflexivity|assumption|].
    intros k Hk Hch. apply andb_true_iff in Hch.
    rewrite String.eqb_eq in Hch. destruct Hch as [Hn Hm].
    now apply Hmaster.
Qed.

Lemma rotation_spares_other_keys_witness :
  fst (api_key_to_community "K9"
         (snd (Community_regenerate_master (Community_init "alpha")
                 (session_of two_db))))
  = Returned (Community_init "beta", true).
Proof.
  assert (Htoken : "K9" <> entropy (session_of two_db)
                             (draws (session_of two_db)))
    by discriminate.
  assert (Hmaster : forall k, In k (api_key_table two_db) ->
                      k_community_name k = "alpha" -> k_master k = true ->
                      k_api_key k <> "K9")
    by (intros k [<-|[<-|[]]] Hn _; discriminate).
  exact (proj2 (rotation_spares_other_keys (Community_init "alpha") "K9"
                  (session_of two_db) eq_refl Htoken)
           Hmaster _ eq_refl eq_refl).
Defined.

Lemma select_community_rotated name token d :
  select_community name
    (update_api_key
       (fun k => (k_community_name k =? name)%string && k_master k)
       token d)
  = map (fun ck => (fst ck, set_api_key token (snd ck)))
      (select_community name d).
Proof.
  unfold select_community, update_api_key.
  cbn [community_table api_key_table]. rewrite join_map_right.
  2:{ intros c k. unfold same_community.
      now destruct ((k_community_name k =? name)%string && k_master k). }
  rewrite filter_map_swap.
  match goal with
  | |- map _ (filter ?p ?rows) = map _ (filter ?q ?rows) =>
      assert (Hsame : filter p rows = filter q rows)
  end.
  { apply filter_ext. intros [c k]. cbn [fst snd].
    now destruct ((k_community_name k =? name)%string && k_master k). }
  rewrite Hsame. apply map_ext_in. intros [c k] Hin. cbn [fst snd].
  apply filter_In in Hin. destruct Hin as [Hin Hp].
  apply In_join in Hin. destruct Hin as [_ [_ Hck]].
  cbn [fst snd] in Hp. apply andb_true_iff in Hp. destruct Hp as [Hn Hm].
  unfold same_community in Hck. apply String.eqb_eq in Hck, Hn.
  assert (Hkn : (k_community_name k =? name)%string = true)
    by (apply String.eqb_eq; congruence).
  now rewrite Hkn, Hm.
Qed.

Lemma Community_get_after_rotation self s s' m :
  faults s (statements s) = None ->
  faults s' (statements s') = None ->
  db s' = db (snd (Community_regenerate_master self s)) ->
  fst (Community_get self s) = Returned m ->
  fst (Community_get self s')
  = Returned (mk_CommunityModel (entropy s (draws s)) (cm_owner_id m)
                (cm_disabled m) (cm_community_name m)).
Proof.
  intros Hq Hq' Hdb Hget.
  destruct (Community_regenerate_master_run self s Hq) as [_ Hd].
  rewrite Community_get_run in Hget by exact Hq.
  rewrite Community_get_run by exact Hq'.
  rewrite Hdb, Hd, select_community_rotated.
  destruct (select_community (community_name self) (db s)) as [|[c k] rest];
    simpl in *; [discriminate|].
  inversion Hget. reflexivity.
Qed.

(** X12.  After [regenerate_master], [Community.get] returns the summary
    it returned before with the token drawn as its key. *)
Theorem Community_regenerate_master_then_get
    (self : Community) (s : Session) (m : CommunityModel) :
  faults s (statements s) = None ->
  fst (Community_get self s) = Returned m ->
  fst (Community_regenerate_master self s) = Returned (entropy s (draws s))
  /\ forall s',
       db s' = db (snd (Community_regenerate_master self s)) ->
       faults s' (statements s') = None ->
       fst (Community_get self s')
       = Returned (mk_CommunityModel (entropy s (draws s)) (cm_owner_id m)
                     (cm_disabled m) (cm_community_name m)).
Proof.
  intros Hq Hget.
  split; [exact (proj1 (Community_regenerate_master_run self s Hq))|].
  intros s' Hdb Hq'.
  now apply (Community_get_after_rotation self s s' m).
Qed.

Lemma Community_regenerate_master_then_get_witness :
  fst (Community_get (Community_init "alpha")
         (snd (Community_regenerate_master (Community_init "alpha")
                 (session_of alpha_db))))
  = Returned (mk_CommunityModel "K1" "S1" false "alpha").
Proof.
  exact (proj2 (Community_regenerate_master_then_get (Community_init "alpha")
                  (session_of alpha_db)
                  (mk_CommunityModel "K0" "S1" false "alpha")
                  eq_refl eq_refl)
           _ eq_refl eq_refl).
Defined.

Lemma rotated_keys_unique (chosen : api_key_row -> bool) token
    (rows : list api_key_row) :
  NoDup (map k_api_key rows) ->
  ~ In token (map k_api_key rows) ->
  (forall k1 k2, In k1 rows -> In k2 rows ->
                 chosen k1 = true -> chosen k2 = true -> k1 = k2) ->
  NoDup (map k_api_key
           (map (fun k => if chosen k then set_api_key token k else k)
              rows)).
Proof.
  induction rows as [|x rows IH]; simpl; intros Hnd Hfresh Hone;
    [constructor|].
  inversion Hnd as [|? ? Hx Hnd']; subst.
  assert (Hrest : NoDup (map k_api_key
                           (map (fun k => if chosen k
                                          then set_api_key token k else k)
                              rows))).
  { apply IH; [assumption|tauto|]. intros k1 k2 H1 H2. apply Hone; now right. }
  constructor; [|exact Hrest].
  rewrite map_map, in_map_iff. intros [y [Hy Hin]].
  destruct (chosen x) eqn:Ex, (chosen y) eqn:Ey; simpl in Hy.
  - assert (y = x) by (apply Hone; [now right|now left|assumption..]).
    subst y. apply Hx. now apply in_map.
  - apply Hfresh. right. rewrite <- Hy. now apply in_map.
  - apply Hfresh. now left.
  - apply Hx. rewrite <- Hy. now apply in_map.
Qed.

(** X13.  Rotation keeps key strings unique when the token drawn is no
    stored key: always for [regenerate], and for [regenerate_master] when
    the community has at most one master row. *)
Theorem rotation_keeps_unique_keys (self : Community) (s : Session) :
  faults s (statements s) = None ->
  unique_keys (db s) ->
  fresh_token s ->
  (forall old_key,
     unique_keys (db (snd (Community_regenerate self old_key s))))
  /\ ((forall k1 k2,
         In k1 (api_key_table (db s)) -> In k2 (api_key_table (db s)) ->
         k_community_name k1 = community_name self ->
         k_community_name k2 = community_name self ->
         k_master k1 = true -> k_master k2 = true -> k1 = k2) ->
      unique_keys (db (snd (Community_regenerate_master self s)))).
Proof.
  intros Hq Hu Hfresh. split.
  - intros old_key.
    destruct (Community_regenerate_run self old_key s Hq) as [_ ->].
    unfold unique_keys, update_api_key. cbn [api_key_table].
    apply rotated_keys_unique; [assumption..|].
    intros k1 k2 H1 H2 Hc1 Hc2. apply andb_true_iff in Hc1, Hc2.
    rewrite !String.eqb_eq in Hc1, Hc2.
    apply (map_key_injective _ _ _ _ Hu); [assumption..|].
    destruct Hc1, Hc2. congruence.
  - intros Hone.
    destruct (Community_regenerate_master_run self s Hq) as [_ ->].
    unfold unique_keys, update_api_key. cbn [api_key_table].
    apply rotated_keys_unique; [assumption..|].
    intros k1 k2 H1 H2 Hc1 Hc2. apply andb_true_iff in Hc1, Hc2.
    rewrite String.eqb_eq in Hc1, Hc2. destruct Hc1, Hc2.
    now apply Hone.
Qed.

Lemma rotation_keeps_unique_keys_witness :
  unique_keys
    (db (snd (Community_regenerate (Community_init "alpha") "K0"
                (session_of two_db)))).
Proof.
  refine (proj1 (rotation_keeps_unique_keys (Community_init "alpha")
                   (session_of two_db) eq_refl two_db_unique_keys _)
            "K0").
  unfold fresh_token. simpl. intros [H|[H|[]]]; discriminate.
Defined.

(** X14.  Creation and rotation compose: when an identity creates an
    enabled community and the master key is then rotated, each token
    being no stored key when it is drawn, the second token differs from
    the first, the first is refused with [InvalidAPIKey] and the second
    resolves to the community as its master key. *)
Theorem create_community_then_rotate
    (steam_id name : string) (demos : bool) (s : Session) :
  quiet s ->
  ~ owns_enabled (db s) steam_id ->
  ~ name_taken (db s) name ->
  unique_keys (db s) ->
  fresh_token s ->
  forall s1,
    db s1 = db (snd (create_community steam_id name false demos s)) ->
    faults s1 (statements s1) = None ->
    fresh_token s1 ->
    forall s2,
      db s2 = db (snd (Community_regenerate_master (Community_init name)
                         s1)) ->
      faults s2 (statements s2) = None ->
      entropy s1 (draws s1) <> entropy s (draws s)
      /\ fst (api_key_to_community (entropy s (draws s)) s2)
         = Raised InvalidAPIKey
      /\ fst (api_key_to_community (entropy s1 (draws s1)) s2)
         = Returned (Community_init name, true).
Proof.
  intros Hq Hno Hfree Hu Hfresh s1 Hdb1 Hq1 Hfresh1 s2 Hdb2 Hq2.
  destruct (create_community_created steam_id name false demos s
              Hq Hno Hfree) as [_ Hd].
  rewrite Hd in Hdb1.
  destruct (Community_regenerate_master_run (Community_init name) s1 Hq1)
    as [_ Hd1].
  rewrite Hd1 in Hdb2. cbn [community_name] in Hdb2.
  set (key := entropy s (draws s)) in *.
  set (key1 := entropy s1 (draws s1)) in *.
  set (c := mk_community name steam_id false demos (clock s (ticks s))).
  set (k0 := mk_api_key key steam_id (clock s (S (ticks s))) name true).
  set (chosen := fun k => (k_community_name k =? name)%string && k_master k)
    in *.
  assert (Hc : In c (community_table (db s1))).
  { rewrite Hdb1. cbn [community_table created_db]. apply in_app_iff.
    right. now left. }
  assert (Hk0 : In k0 (api_key_table (db s1))).
  { rewrite Hdb1. cbn [api_key_table created_db]. apply in_app_iff.
    right. now left. }
  assert (Hu1 : unique_keys (db s1)).
  { rewrite Hdb1. unfold unique_keys. cbn [api_key_table created_db].
    now apply NoDup_map_snoc. }
  assert (Hch0 : chosen k0 = true).
  { unfold chosen, k0. simpl. now rewrite String.eqb_refl. }
  assert (Hrows : forall k, In k (api_key_table (db s1)) ->
            chosen k = true ->
            k_community_name k = name /\ k_master k = k_master k0).
  { intros k _ Hch. unfold chosen in Hch. apply andb_true_iff in Hch.
    rewrite String.eqb_eq in Hch. simpl. tauto. }
  split; [|split].
  - exact (rotated_key_differs (db s1) key1 k0 Hfresh1 Hk0).
  - rewrite api_key_to_community_run, Hdb2 by exact Hq2.
    change key with (k_api_key k0).
    now rewrite (rotated_old_key_gone (db s1) chosen key1 k0 Hu1 Hfresh1
                   Hk0 Hch0).
  - rewrite api_key_to_community_run, Hdb2 by exact Hq2.
    destruct (rotated_new_key_resolves (db s1) chosen key1 name k0 c
                Hfresh1 Hk0 Hch0 Hrows Hc eq_refl eq_refl)
      as [c' [k' [-> [Hcn Hm]]]].
    simpl. now rewrite Hcn, Hm.
Qed.

Lemma create_community_then_rotate_witness :
  let s1 := snd (create_community "S2" "beta" false true
                   (session_of alpha_db)) in
  let s2 := snd (Community_regenerate_master (Community_init "beta") s1) in
  "K2" <> "K1"
  /\ fst (api_key_to_community "K1" s2) = Raised InvalidAPIKey
  /\ fst (api_key_to_community "K2" s2)
     = Returned (Community_init "beta", true).
Proof.
  intros s1 s2.
  assert (Hno : ~ owns_enabled alpha_db "S2")
    by (intros [c [[<-|[]] [Ho _]]]; discriminate).
  assert (Hfree : ~ name_taken alpha_db "beta")
    by (intros [c [[<-|[]] Hn]]; discriminate).
  assert (Hfresh : fresh_token (session_of alpha_db))
    by (unfold fresh_token; simpl; intros [H|[]]; discriminate).
  assert (Hfresh1 : fresh_token s1)
    by (unfold fresh_token; simpl; intros [H|[H|[]]]; discriminate).
  exact (create_community_then_rotate "S2" "beta" true
           (session_of alpha_db) (fun n => eq_refl) Hno Hfree
           alpha_db_unique_keys Hfresh s1 eq_refl eq_refl Hfresh1
           s2 eq_refl eq_refl).
Defined.

(** ** [Community.matches]: new matches, pages and empty joins *)

Lemma select_matches_appended name d d' t :
  scoreboard_total_table d' = (scoreboard_total_table d ++ [t])%list ->
  t_community_name t = name ->
  select_matches name d'
  = (select_matches name d ++ [select_columns t])%list.
Proof.
  intros Ht Hn. unfold select_matches. rewrite Ht, filter_app, map_app.
  simpl. apply String.eqb_eq in Hn. now rewrite Hn.
Qed.

(** X15.  A match made by [create_match] is listed: [Community.matches]
    without a term, on the first page and with a limit above the number
    of matches the community had, yields the columns of the new match
    (live, without a demo, stamped with the clock reading) together with
    the very handle that [create_match] returned. *)
Theorem Community_create_match_then_listed
    (like : string -> string -> bool) (self : Community)
    (team_1_name team_2_name : string) (team_1_side team_2_side : Z)
    (team_1_score team_2_score : Z) (map_name : string)
    (page limit : Z) (desc : bool) (s : Session) :
  faults s (statements s) = None ->
  page <= 1 ->
  Z.of_nat (List.length (select_matches (community_name self) (db s)))
  < limit ->
  forall s',
    db s' = db (snd (Community_create_match self team_1_name team_2_name
                       team_1_side team_2_side team_1_score team_2_score
                       map_name s)) ->
    faults s' (statements s') = None ->
    exists h rows,
      fst (Community_create_match self team_1_name team_2_name
             team_1_side team_2_side team_1_score team_2_score map_name s)
      = Returned h
      /\ fst (Community_matches like self None page limit desc s')
         = Returned rows
      /\ In (mk_MatchModel (match_id h) (clock s (ticks s)) 1 0 map_name
               team_1_name team_2_name team_1_score team_2_score
               team_1_side team_2_side, h)
           rows.
Proof.
  intros Hq Hpage Hlimit s' Hdb Hq'.
  destruct (Community_create_match_row self team_1_name team_2_name
              team_1_side team_2_side team_1_score team_2_score map_name
              s Hq) as [Hr Ht].
  rewrite <- Hdb in Ht.
  eexists. eexists. split; [exact Hr|].
  split; [now apply Community_matches_run|].
  cbn [match_id].
  set (new := mk_total _ _ _ _ _ _ _ _ _ _ _ _ _) in Ht.
  pose proof (select_matches_appended (community_name self) (db s) (db s')
                new Ht eq_refl) as Happ.
  set (ordered := order_by desc (select_matches (community_name self)
                                   (db s'))).
  assert (Hin : In (select_columns new) ordered).
  { apply (Permutation_in _ (Permutation_sym (order_by_Permutation _ _))).
    rewrite Happ. apply in_app_iff. right. now left. }
  assert (Hlen : (List.length ordered <= Z.to_nat limit)%nat).
  { unfold ordered.
    rewrite (Permutation_length (order_by_Permutation _ _)), Happ.
    rewrite length_app. simpl. lia. }
  unfold yielded, limit_offset, page_offset.
  assert (Hoff : (1 <? page) = false) by (apply Z.ltb_ge; lia).
  rewrite Hoff. simpl skipn. fold ordered.
  rewrite firstn_all2 by exact Hlen.
  apply in_map_iff. exists (select_columns new). split; [reflexivity|].
  exact Hin.
Qed.

Lemma Community_create_match_then_listed_witness :
  exists h rows,
    fst (Community_create_match (Community_init "alpha") "A" "B" 2 3 0 0
           "mirage" (session_of alpha_db)) = Returned h
    /\ fst (Community_matches (sql_like binary) (Community_init "alpha")
              None 1 5 true
              (snd (Community_create_match (Community_init "alpha") "A" "B"
                      2 3 0 0 "mirage" (session_of alpha_db))))
       = Returned rows
    /\ In (mk_MatchModel (match_id h) 0 1 0 "mirage" "A" "B" 0 0 2 3, h)
         rows.
Proof.
  assert (Hpage : 1 <= 1) by lia.
  assert (Hlimit : Z.of_nat (List.length (select_matches "alpha" alpha_db))
                   < 5) by (simpl; lia).
  exact (Community_create_match_then_listed (sql_like binary)
           (Community_init "alpha") "A" "B" 2 3 0 0 "mirage" 1 5 true
           (session_of alpha_db)
           eq_refl Hpage Hlimit _ eq_refl eq_refl).
Defined.

Lemma firstn_plus {A} (n m : nat) (l : list A) :
  firstn (n + m) l = (firstn n l ++ firstn m (skipn n l))%list.
Proof.
  revert l. induction n as [|n IH]; intros l; [reflexivity|].
  destruct l as [|x l]; simpl.
  - now rewrite firstn_nil.
  - now rewrite IH.
Qed.

(** X16.  Pages tile the result, with or without a term.  Every page
    number up to 1, zero and the negative ones included, gives the first
    page; and for a page above 1, the first page of limit
    [page * limit] is the first page of limit [(page - 1) * limit]
    followed by that page of limit [limit]. *)
Theorem Community_matches_pages
    (like : string -> string -> bool) (self : Community)
    (search : option string) (limit : Z) (desc : bool) (s : Session) :
  faults s (statements s) = None ->
  0 <= limit ->
  (forall page, page <= 1 ->
     Community_matches like self search page limit desc s
     = Community_matches like self search 1 limit desc s)
  /\ (forall page, 1 < page ->
        exists before this,
          fst (Community_matches like self search 1
                 ((page - 1) * limit) desc s) = Returned before
          /\ fst (Community_matches like self search page limit desc s)
             = Returned this
          /\ fst (Community_matches like self search 1 (page * limit)
                    desc s)
             = Returned (before ++ this)%list).
Proof.
  intros Hq Hlimit. split.
  - intros page Hpage. unfold Community_matches, page_offset.
    assert (Hoff : (1 <? page) = false) by (apply Z.ltb_ge; lia).
    now rewrite Hoff.
  - intros page Hpage. eexists. eexists.
    rewrite !Community_matches_run by exact Hq.
    split; [reflexivity|]. split; [reflexivity|]. f_equal.
    unfold yielded. rewrite <- map_app. f_equal.
    unfold limit_offset, page_offset.
    assert (Hon : (1 <? page) = true) by (apply Z.ltb_lt; lia).
    rewrite Hon. simpl skipn.
    replace (Z.to_nat (page * limit))
      with (Z.to_nat ((page - 1) * limit) + Z.to_nat limit)%nat
      by (rewrite <- Z2Nat.inj_add by nia; f_equal; lia).
    apply firstn_plus.
Qed.

Lemma Community_matches_pages_witness :
  exists before this,
    fst (Community_matches (sql_like binary) (Community_init "alpha")
           None 1 5 true (session_of twelve_db)) = Returned before
    /\ fst (Community_matches (sql_like binary) (Community_init "alpha")
              None 2 5 true (session_of twelve_db)) = Returned this
    /\ fst (Community_matches (sql_like binary) (Community_init "alpha")
              None 1 10 true (session_of twelve_db))
       = Returned (before ++ this)%list.
Proof.
  assert (Hlimit : 0 <= 5) by lia.
  assert (Hpage : 1 < 2) by lia.
  exact (proj2 (Community_matches_pages (sql_like binary)
                  (Community_init "alpha") None 5 true
                  (session_of twelve_db) eq_refl Hlimit)
           2 Hpage).
Defined.

Lemma join_no_right {A B} (on : A -> B -> bool) (l : list A) :
  join on l [] = [].
Proof.
  unfold join. induction l as [|a l IH]; simpl; [reflexivity|assumption].
Qed.

(** X17.  The search is an inner join: while no player row or no user is
    stored, [Community.matches] with a non-empty term yields nothing,
    whatever the term and the matches stored. *)
Theorem Community_matches_search_needs_players
    (like : string -> string -> bool) (self : Community) (term : string)
    (page limit : Z) (desc : bool) (s : Session) :
  faults s (statements s) = None ->
  term <> EmptyString ->
  scoreboard_table (db s) = [] \/ user_table (db s) = [] ->
  fst (Community_matches like self (Some term) page limit desc s)
  = Returned [].
Proof.
  intros Hq Hterm Hempty. rewrite Community_matches_run by exact Hq.
  rewrite (truthy_nonempty term Hterm).
  assert (Hjoin : search_join (db s) = []).
  { unfold search_join. destruct Hempty as [-> | ->].
    - now rewrite join_no_right.
    - apply join_no_right. }
  unfold select_matches_search. rewrite Hjoin. simpl.
  unfold limit_offset. now rewrite skipn_nil, firstn_nil.
Qed.

Lemma Community_matches_search_needs_players_witness :
  fst (Community_matches (sql_like binary) (Community_init "alpha")
         (Some "mirage") 1 5 true (session_of lonely_match_db))
  = Returned [].
Proof.
  assert (Hterm : "mirage" <> EmptyString) by discriminate.
  exact (Community_matches_search_needs_players (sql_like binary)
           (Community_init "alpha") "mirage" 1 5 true
           (session_of lonely_match_db) eq_refl Hterm (or_introl eq_refl)).
Defined.

(** ** [VersionAPI.get]: every outcome *)

(** X18.  [VersionAPI.get] has two outcomes only: it answers the cached
    value when that is truthy, and raises [AttributeError] otherwise.  It
    leaves the session as it found it, so it neither reaches the database
    nor writes the cache, and it never answers an error envelope. *)
Theorem VersionAPI_get_outcomes (version : string) (s : Session) :
  snd (VersionAPI_get version s) = s
  /\ (py_truthy (cached_value version s) = true
      /\ fst (VersionAPI_get version s)
         = Returned (response (cached_value version s))
      \/ py_truthy (cached_value version s) = false
         /\ fst (VersionAPI_get version s) = Raised AttributeError)
  /\ (forall kind,
        fst (VersionAPI_get version s) = Returned (error_response kind) ->
        False).
Proof.
  destruct (py_truthy (cached_value version s)) eqn:E.
  - rewrite (VersionAPI_get_cache_hit version s E). simpl.
    split; [reflexivity|]. split; [now left|]. discriminate.
  - rewrite (VersionAPI_get_cache_miss version s E). simpl.
    split; [reflexivity|]. split; [now right|]. discriminate.
Qed.

(** ** The owner and creation endpoints *)

Lemma CommunityOwnerAPI_get_run community s :
  fst (CommunityOwnerAPI_get community s)
  = match fst (Community_get community s) with
    | Returned m => Returned (api_response (Some (community_to_dict m)))
    | Raised e => Raised e
    end.
Proof.
  unfold CommunityOwnerAPI_get.
  destruct (Community_get community s) as [[m|e] s']; [reflexivity|].
  now destruct e.
Qed.

Lemma Community_get_after_disable self s s' m :
  faults s (statements s) = None ->
  faults s' (statements s') = None ->
  db s' = update_disabled (community_name self) (db s) ->
  fst (Community_get self s) = Returned m ->
  fst (Community_get self s')
  = Returned (mk_CommunityModel (cm_api_key m) (cm_owner_id m) true
                (cm_community_name m)).
Proof.
  intros Hq Hq' Hdb. rewrite !Community_get_run, Hdb by assumption.
  rewrite select_community_disabled.
  destruct (select_community (community_name self) (db s))
    as [|[c k] rest] eqn:E; simpl; [discriminate|].
  intros Hm. inversion Hm; subst m. unfold CommunityModel_of_row; simpl.
  assert (Hin : In (c, k) (select_community (community_name self) (db s)))
    by (rewrite E; now left).
  apply select_community_In in Hin. destruct Hin as [_ [_ [Hcn _]]].
  rewrite disabled_row_name. unfold disabled_row.
  apply String.eqb_eq in Hcn. now rewrite Hcn.
Qed.

(** X19.  The owner's endpoints compose.  After [CommunityOwnerAPI.post]
    has answered the new master key, [CommunityOwnerAPI.get] answers the
    community as before with that key; after [CommunityOwnerAPI.delete]
    has answered its empty body, [CommunityOwnerAPI.get] still answers
    the community, now flagged disabled. *)
Theorem CommunityOwnerAPI_then_get
    (community : Community) (s : Session) (m : CommunityModel) :
  faults s (statements s) = None ->
  fst (CommunityOwnerAPI_get community s)
  = Returned (api_response (Some (community_to_dict m))) ->
  (fst (CommunityOwnerAPI_post community s)
   = Returned (api_response
                 (Some [("master_api_key",
                         JsonString (entropy s (draws s)))]))
   /\ forall s',
        db s' = db (snd (CommunityOwnerAPI_post community s)) ->
        faults s' (statements s') = None ->
        fst (CommunityOwnerAPI_get community s')
        = Returned (api_response
                      (Some (community_to_dict
                               (mk_CommunityModel (entropy s (draws s))
                                  (cm_owner_id m) (cm_disabled m)
                                  (cm_community_name m))))))
  /\ (fst (CommunityOwnerAPI_delete community s)
      = Returned (api_response None)
      /\ forall s',
           db s' = db (snd (CommunityOwnerAPI_delete community s)) ->
           faults s' (statements s') = None ->
           fst (CommunityOwnerAPI_get community s')
           = Returned (api_response
                         (Some (community_to_dict
                                  (mk_CommunityModel (cm_api_key m)
                                     (cm_owner_id m) true
                                     (cm_community_name m)))))).
Proof.
  intros Hq Hget. rewrite CommunityOwnerAPI_get_run in Hget.
  destruct (fst (Community_get community s)) as [m0|e] eqn:Hm0;
    [|discriminate].
  assert (m0 = m).
  { inversion Hget as [Hd]. destruct m0, m. simpl in *. congruence. }
  subst m0. split.
  - pose proof (proj1 (Community_regenerate_master_run community s Hq))
      as Hkey.
    pose proof (fun s' Hdb Hq' =>
                  Community_get_after_rotation community s s' m Hq Hq' Hdb
                    Hm0) as Hafter.
    assert (Hpost : CommunityOwnerAPI_post community s
                    = (Returned (api_response
                                   (Some [("master_api_key",
                                           JsonString
                                             (entropy s (draws s)))])),
                       snd (Community_regenerate_master community s))).
    { unfold CommunityOwnerAPI_post, bind.
      destruct (Community_regenerate_master community s) as [[k|e] s1];
        simpl in *; [|discriminate].
      inversion Hkey. reflexivity. }
    rewrite Hpost. split; [reflexivity|]. intros s' Hdb Hq'.
    rewrite CommunityOwnerAPI_get_run. now rewrite (Hafter s' Hdb Hq').
  - assert (Hdel : CommunityOwnerAPI_delete community s
                   = (Returned (api_response None),
                      snd (Community_disable community s))).
    { unfold CommunityOwnerAPI_delete, bind.
      now rewrite Community_disable_run by exact Hq. }
    rewrite Hdel. split; [reflexivity|]. intros s' Hdb Hq'.
    rewrite Community_disable_run in Hdb by exact Hq.
    rewrite CommunityOwnerAPI_get_run.
    now rewrite (Community_get_after_disable community s s' m Hq Hq' Hdb
                   Hm0).
Qed.

Lemma CommunityOwnerAPI_then_get_witness :
  fst (CommunityOwnerAPI_get (Community_init "alpha")
         (snd (CommunityOwnerAPI_post (Community_init "alpha")
                 (session_of alpha_db))))
  = Returned (api_response
                (Some (community_to_dict
                         (mk_CommunityModel "K1" "S1" false "alpha"))))
  /\ fst (CommunityOwnerAPI_get (Community_init "alpha")
            (snd (CommunityOwnerAPI_delete (Community_init "alpha")
                    (session_of alpha_db))))
     = Returned (api_response
                   (Some (community_to_dict
                            (mk_CommunityModel "K0" "S1" true "alpha")))).
Proof.
  destruct (CommunityOwnerAPI_then_get (Community_init "alpha")
              (session_of alpha_db)
              (mk_CommunityModel "K0" "S1" false "alpha") eq_refl eq_refl)
    as [[_ Hpost] [_ Hdelete]].
  split.
  - exact (Hpost _ eq_refl eq_refl).
  - exact (Hdelete _ eq_refl eq_refl).
Defined.

Lemma CommunityAPI_post_run steam_id parameters s :
  let demos := match arg_demos parameters with
               | Some demos => demos
               | None => true
               end in
  let r := create_community steam_id (arg_community_name parameters)
             false demos s in
  snd (CommunityAPI_post steam_id parameters s) = snd r
  /\ fst (CommunityAPI_post steam_id parameters s)
     = match fst r with
       | Returned created =>
           Returned (api_response (Some (community_to_dict (fst created))))
       | Raised e => Raised e
       end.
Proof.
  intros demos r. subst r demos. unfold CommunityAPI_post, bind.
  now destruct (create_community _ _ _ _ s) as [[created|e] s'].
Qed.

(** X20.  [CommunityAPI.post] never stores a disabled community, whatever
    the persistence layer does: a community row it adds is enabled, owned
    by the identity of the session, named as asked, and records demos
    unless the request says otherwise.  When the statements are answered,
    the identity owns no enabled community and the name is free, it
    answers the summary of that community with the token drawn as its
    key. *)
Theorem CommunityAPI_post_creates_enabled
    (steam_id : string) (parameters : community_args) (s : Session) :
  (forall c,
     In c (community_table (db (snd (CommunityAPI_post steam_id parameters
                                       s)))) ->
     In c (community_table (db s))
     \/ c = mk_community (arg_community_name parameters) steam_id false
              match arg_demos parameters with
              | Some demos => demos
              | None => true
              end
              (clock s (ticks s)))
  /\ (quiet s ->
      ~ owns_enabled (db s) steam_id ->
      ~ name_taken (db s) (arg_community_name parameters) ->
      fst (CommunityAPI_post steam_id parameters s)
      = Returned (api_response
                    (Some (community_to_dict
                             (mk_CommunityModel (entropy s (draws s))
                                steam_id false
                                (arg_community_name parameters))))))
  /\ (faults s (statements s) = None ->
      owns_enabled (db s) steam_id ->
      fst (CommunityAPI_post steam_id parameters s)
      = Raised AlreadyCommunity).
Proof.
  destruct (CommunityAPI_post_run steam_id parameters s) as [Hs Hr].
  rewrite Hs, Hr. clear Hs Hr. split; [|split].
  - intros c Hc.
    destruct (create_community_db steam_id (arg_community_name parameters)
                false
                match arg_demos parameters with
                | Some demos => demos
                | None => true
                end s) as [E|[_ [_ [E|E]]]];
      rewrite E in Hc; [now left| |];
      cbn [community_table half_created_db created_db] in Hc;
      apply in_app_iff in Hc; simpl in Hc;
      destruct Hc as [Hc|[<-|[]]]; tauto.
  - intros Hq Hno Hfree.
    destruct (create_community_created steam_id
                (arg_community_name parameters) false
                match arg_demos parameters with
                | Some demos => demos
                | None => true
                end s Hq Hno Hfree) as [-> _].
    reflexivity.
  - intros Hq Ho.
    destruct (create_community_refused steam_id
                (arg_community_name parameters) false
                match arg_demos parameters with
                | Some demos => demos
                | None => true
                end s Hq Ho) as [-> _].
    reflexivity.
Qed.

Lemma CommunityAPI_post_creates_enabled_witness :
  fst (CommunityAPI_post "S2" (mk_community_args "beta" None)
         (session_of alpha_db))
  = Returned (api_response
                (Some [("api_key", JsonString "K1");
                       ("owner_id", JsonString "S2");
                       ("disabled", JsonBool false);
                       ("community_name", JsonString "beta")]))
  /\ fst (CommunityAPI_post "S1" (mk_community_args "beta" (Some false))
            (session_of alpha_db))
     = Raised AlreadyCommunity.
Proof.
  split.
  - apply (proj1 (proj2 (CommunityAPI_post_creates_enabled "S2"
                           (mk_community_args "beta" None)
                           (session_of alpha_db)))).
    + intros n. reflexivity.
    + intros [c [[<-|[]] [Ho _]]]. discriminate.
    + intros [c [[<-|[]] Hn]]. discriminate.
  - apply (proj2 (proj2 (CommunityAPI_post_creates_enabled "S1"
                           (mk_community_args "beta" (Some false))
                           (session_of alpha_db))));
      [reflexivity|].
    exists (mk_community "alpha" "S1" false true 0). simpl. tauto.
Defined.

(** ** [Community.disable] and the data model *)

Lemma Community_disable_db self s :
  db (snd (Community_disable self s)) = db s
  \/ db (snd (Community_disable self s))
     = update_disabled (community_name self) (db s).
Proof.
  destruct (faults s (statements s)) as [e|] eqn:F.
  - left. unfold Community_disable. now rewrite (statement_failed _ _ e F).
  - right. now rewrite Community_disable_run by exact F.
Qed.

Lemma name_taken_after_disable name d n :
  name_taken (update_disabled name d) n <-> name_taken d n.
Proof.
  rewrite !name_taken_names, update_disabled_rows, map_map.
  erewrite map_ext; [reflexivity|]. intros c. apply disabled_row_name.
Qed.

(** X21.  [Community.disable] keeps the data model whole, answered or
    not: community names stay unique, an owner keeps at most one enabled
    community, key strings stay unique and every key row still belongs to
    a community. *)
Theorem Community_disable_keeps_invariants (self : Community) (s : Session) :
  (unique_names (db s) ->
   unique_names (db (snd (Community_disable self s))))
  /\ (one_enabled_per_owner (db s) ->
      one_enabled_per_owner (db (snd (Community_disable self s))))
  /\ (unique_keys (db s) ->
      unique_keys (db (snd (Community_disable self s))))
  /\ (keys_reference_communities (db s) ->
      keys_reference_communities (db (snd (Community_disable self s)))).
Proof.
  destruct (Community_disable_db self s) as [-> | ->]; [tauto|].
  split; [|split; [|split]].
  - unfold unique_names. rewrite update_disabled_rows, map_map.
    rewrite (map_ext
               (fun c => c_community_name
                           (disabled_row (community_name self) c))
               c_community_name (disabled_row_name _)).
    tauto.
  - intros Hone c1 c2 H1 H2 Ho He1 He2.
    rewrite update_disabled_rows in H1, H2.
    apply in_map_iff in H1, H2.
    destruct H1 as [a1 [<- H1]], H2 as [a2 [<- H2]].
    apply disabled_row_enabled in He1, He2.
    destruct He1 as [_ [E1 He1]], He2 as [_ [E2 He2]].
    rewrite E1, E2 in *. now apply Hone.
  - tauto.
  - intros Href k Hk. apply name_taken_after_disable. now apply Href.
Qed.

Lemma Community_disable_keeps_invariants_witness :
  one_enabled_per_owner
    (db (snd (Community_disable (Community_init "alpha")
                (session_of two_db))))
  /\ unique_keys
       (db (snd (Community_disable (Community_init "alpha")
                   (session_of two_db)))).
Proof.
  destruct (Community_disable_keeps_invariants (Community_init "alpha")
              (session_of two_db)) as [_ [Hone [Hkeys _]]].
  split.
  - exact (Hone two_db_one_enabled_per_owner).
  - exact (Hkeys two_db_unique_keys).
Defined.

(** ** Key rotation, case by case *)

Lemma rotated_token_of_disabled chosen token name d :
  ~ In token (map k_api_key (api_key_table d)) ->
  (forall k, chosen k = true -> k_community_name k = name) ->
  (forall c, In c (community_table d) -> c_community_name c = name ->
             c_disabled c = true) ->
  select_api_key token (update_api_key chosen token d) = [].
Proof.
  intros Hfresh Hchosen Hdisabled.
  destruct (select_api_key token (update_api_key chosen token d))
    as [|[c k] rest] eqn:E; [reflexivity|].
  exfalso.
  assert (Hin : In (c, k) (select_api_key token
                             (update_api_key chosen token d)))
    by (rewrite E; now left).
  apply select_api_key_In in Hin.
  destruct Hin as [Hc [Hk [Hck [Hkey He]]]].
  cbn [community_table api_key_table update_api_key] in Hc, Hk.
  apply in_map_iff in Hk. destruct Hk as [k1 [Hk1 Hin1]].
  destruct (chosen k1) eqn:Ech.
  - subst k. simpl in Hck. rewrite (Hchosen k1 Ech) in Hck.
    rewrite (Hdisabled c Hc Hck) in He. discriminate.
  - subst k. apply Hfresh. rewrite <- Hkey. now apply in_map.
Qed.

(** C7, as the code has it.  The token drawn being the key of no row:
    for an enabled community and unique key strings, [regenerate] called
    with the key of a row of the community, and [regenerate_master] when
    the community has a master row, return the token, which differs from
    the key stored before, and afterwards the token resolves to the
    community, with the master flag of the rotated row, while the
    replaced key is refused with [InvalidAPIKey]; when no key row of the
    community carries the old key, [regenerate] returns the token,
    changes nothing, and the token is refused afterwards; and when the
    rows of the community are disabled, the token that either rotation
    returns is refused afterwards. *)
Theorem key_rotation (self : Community) (s : Session) :
  faults s (statements s) = None ->
  fresh_token s ->
  let key := entropy s (draws s) in
  (unique_keys (db s) ->
   forall c, In c (community_table (db s)) ->
     c_community_name c = community_name self ->
     c_disabled c = false ->
     (forall k0, In k0 (api_key_table (db s)) ->
        k_community_name k0 = community_name self ->
        let r := Community_regenerate self (k_api_key k0) s in
        fst r = Returned key /\ key <> k_api_key k0
        /\ forall s', db s' = db (snd r) ->
             faults s' (statements s') = None ->
             fst (api_key_to_community key s')
             = Returned (Community_init (community_name self), k_master k0)
             /\ fst (api_key_to_community (k_api_key k0) s')
                = Raised InvalidAPIKey)
     /\ (forall k0, In k0 (api_key_table (db s)) ->
           k_community_name k0 = community_name self ->
           k_master k0 = true ->
           let r := Community_regenerate_master self s in
           fst r = Returned key /\ key <> k_api_key k0
           /\ forall s', db s' = db (snd r) ->
                faults s' (statements s') = None ->
                fst (api_key_to_community key s')
                = Returned (Community_init (community_name self), true)
                /\ fst (api_key_to_community (k_api_key k0) s')
                   = Raised InvalidAPIKey))
  /\ (forall old_key,
        (forall k, In k (api_key_table (db s)) ->
                   k_community_name k = community_name self ->
                   k_api_key k <> old_key) ->
        let r := Community_regenerate self old_key s in
        fst r = Returned key /\ db (snd r) = db s
        /\ forall s', db s' = db (snd r) ->
             faults s' (statements s') = None ->
             fst (api_key_to_community key s') = Raised InvalidAPIKey)
  /\ ((forall c, In c (community_table (db s)) ->
                 c_community_name c = community_name self ->
                 c_disabled c = true) ->
      (forall old_key s',
         db s' = db (snd (Community_regenerate self old_key s)) ->
         faults s' (statements s') = None ->
         fst (Community_regenerate self old_key s) = Returned key
         /\ fst (api_key_to_community key s') = Raised InvalidAPIKey)
      /\ (forall s',
            db s' = db (snd (Community_regenerate_master self s)) ->
            faults s' (statements s') = None ->
            fst (Community_regenerate_master self s) = Returned key
            /\ fst (api_key_to_community key s') = Raised InvalidAPIKey)).
Proof.
  intros Hq Hfresh key. split; [|split].
  - intros Hu c Hc Hn He.
    exact (rotation_of_enabled self s c Hq Hu Hfresh Hc Hn He).
  - intros old_key Hnone r. subst r.
    destruct (Community_regenerate_run self old_key s Hq) as [Hr Hd].
    assert (Hsame : db (snd (Community_regenerate self old_key s)) = db s).
    { rewrite Hd. apply update_api_key_unmatched. intros k Hk.
      apply andb_false_iff.
      destruct (k_community_name k =? community_name self)%string eqn:E;
        [right|now left].
      apply String.eqb_eq in E. apply String.eqb_neq. now apply Hnone. }
    split; [exact Hr|]. split; [exact Hsame|].
    intros s' Hdb Hq'. rewrite api_key_to_community_run by exact Hq'.
    rewrite Hdb, Hsame. now rewrite select_api_key_fresh.
  - intros Hdisabled. split.
    + intros old_key s' Hdb Hq'.
      destruct (Community_regenerate_run self old_key s Hq) as [Hr Hd].
      split; [exact Hr|].
      rewrite api_key_to_community_run by exact Hq'. rewrite Hdb, Hd.
      rewrite (rotated_token_of_disabled _ _ (community_name self));
        [reflexivity|exact Hfresh| |exact Hdisabled].
      intros k Hch. apply andb_true_iff in Hch.
      now rewrite String.eqb_eq in Hch.
    + intros s' Hdb Hq'.
      destruct (Community_regenerate_master_run self s Hq) as [Hr Hd].
      split; [exact Hr|].
      rewrite api_key_to_community_run by exact Hq'. rewrite Hdb, Hd.
      rewrite (rotated_token_of_disabled _ _ (community_name self));
        [reflexivity|exact Hfresh| |exact Hdisabled].
      intros k Hch. apply andb_true_iff in Hch.
      now rewrite String.eqb_eq in Hch.
Qed.

Lemma key_rotation_witness :
  (fst (Community_regenerate_master (Community_init "alpha")
          (session_of alpha_db)) = Returned "K1"
   /\ "K1" <> "K0"
   /\ forall s',
        db s' = db (snd (Community_regenerate_master
                           (Community_init "alpha")
                           (session_of alpha_db))) ->
        faults s' (statements s') = None ->
        fst (api_key_to_community "K1" s')
        = Returned (Community_init "alpha", true)
        /\ fst (api_key_to_community "K0" s') = Raised InvalidAPIKey)
  /\ (fst (Community_regenerate (Community_init "alpha") "nope"
             (session_of alpha_db)) = Returned "K1"
      /\ db (snd (Community_regenerate (Community_init "alpha") "nope"
                    (session_of alpha_db))) = alpha_db)
  /\ fst (api_key_to_community "K1"
            (snd (Community_regenerate_master (Community_init "alpha")
                    (session_of alpha_disabled_db))))
     = Raised InvalidAPIKey.
Proof.
  assert (Hfresh : fresh_token (session_of alpha_db))
    by (unfold fresh_token; simpl; intros [H|[]]; discriminate).
  assert (Hfresh' : fresh_token (session_of alpha_disabled_db))
    by (unfold fresh_token; simpl; intros [H|[]]; discriminate).
  destruct (key_rotation (Community_init "alpha") (session_of alpha_db)
              eq_refl Hfresh) as [Henabled [Hunmatched _]].
  destruct (key_rotation (Community_init "alpha")
              (session_of alpha_disabled_db) eq_refl Hfresh')
    as [_ [_ Hdisabled]].
  split; [|split].
  - exact (proj2 (Henabled alpha_db_unique_keys
                    (mk_community "alpha" "S1" false true 0)
                    (or_introl eq_refl) eq_refl eq_refl)
             (mk_api_key "K0" "S1" 0 "alpha" true) (or_introl eq_refl)
             eq_refl eq_refl).
  - destruct (Hunmatched "nope") as [Hr [Hd _]].
    + intros k [<-|[]] _. discriminate.
    + split; [exact Hr|exact Hd].
  - refine (proj2 (proj2 (Hdisabled _) _ eq_refl eq_refl)).
    intros c [<-|[]] _. reflexivity.
Defined.
